(** * llvm-flow-api: the initial Alembic revision [c6b6fb03f1c5_init.py]

    The revision script is straight-line code: [upgrade] and [downgrade] are
    sequences of calls into Alembic's [op] namespace, each of which issues one
    DDL statement and raises when the database rejects it.  The script is
    embedded as the list of those calls, with the arguments the source passes.

    The database that executes the statements is not part of the repository.
    It is modelled from the specification, which calls it the relational
    engine, as a catalog of tables and indexes with the rows they hold.  The
    points on which the engines Alembic drives differ are kept as parameters
    of the model (record [engine]), so that what is proved holds for each of
    them:
    - whether [CREATE TABLE] looks up the target of a foreign key, and
      whether [DROP TABLE] refuses a table that a foreign key of another
      table points at (PostgreSQL does both, SQLite neither);
    - which values a column takes (PostgreSQL takes the declared type only,
      SQLite nearly anything outside an integer primary key);
    - which id the engine hands out for a row that leaves its integer
      primary key to it: the id is an input of the insert, any integer.

    What the model assumes on all engines:
    - tables and indexes share one namespace: [CREATE TABLE] and
      [CREATE INDEX] reject a name that a table or an index already has;
    - [DROP INDEX] finds the index by its name alone, on whatever table it
      sits; [DROP TABLE] removes the table together with all of its indexes;
    - a script runs until its first failing call; with transactional DDL the
      runner rolls a failed run back, without it the earlier calls stay;
    - foreign keys are enforced on rows ([MATCH SIMPLE], [ON DELETE CASCADE]
      where declared and [NO ACTION] otherwise), as the specification takes
      for granted; so are [NOT NULL], primary keys and unique indexes (a key
      holding a NULL never collides).

    What the model leaves out: the objects an engine creates on its own (the
    index behind a primary key and the sequence behind a serial column in
    PostgreSQL); the conversion an engine applies to a value before it
    stores it (rows are rows as stored); floating-point values; the rows a
    [DROP TABLE] deletes, and with them the cascades these deletions can
    set off in SQLite. *)

From stdpp Require Import gmap strings list fin_maps.
From Stdlib Require Import Ascii ZArith.
From Stdlib Require Strings.Byte.

Local Open Scope string_scope.
Local Open Scope Z_scope.

(** ** SQLAlchemy schema items ([import sqlalchemy as sa]) *)

Module sa.

(** [sa.Integer()], [sa.Text()], [sa.String()] *)
Inductive TypeEngine := Integer | Text | String_.

(** The positional arguments of [op.create_table]: columns and table
    constraints, in the order written. *)
Inductive SchemaItem :=
| Column (name : string) (type_ : TypeEngine) (nullable : bool)
| PrimaryKeyConstraint (columns : list string)
| ForeignKeyConstraint (columns : list string) (refcolumns : list string)
                       (ondelete : option string).

#[global] Instance TypeEngine_eq_dec : EqDecision TypeEngine.
Proof. solve_decision. Defined.

#[global] Instance SchemaItem_eq_dec : EqDecision SchemaItem.
Proof. solve_decision. Defined.

End sa.

(** ** Alembic operations ([from alembic import op]) *)

Module op.

(** [op.f(name)] marks a name as final, exempt from naming conventions:
    the name is used as written. *)
Definition f (name : string) : string := name.

Inductive operation :=
| create_table (table_name : string) (items : list sa.SchemaItem)
| create_index (index_name table_name : string) (columns : list string)
               (unique : bool)
| drop_index (index_name table_name : string)
| drop_table (table_name : string).

End op.

(** ** The revision script *)

Definition revision : string := "c6b6fb03f1c5".
Definition down_revision : option string := None.
Definition branch_labels : option (list string) := None.
Definition depends_on : option (list string) := None.

Definition upgrade : list op.operation :=
  [ op.create_table "identifiers"
      [ sa.Column "id" sa.Integer false;
        sa.Column "Identifier" sa.Text false;
        sa.PrimaryKeyConstraint ["id"] ];
    op.create_index (op.f "ix_identifiers_id") "identifiers" ["id"] false;
    op.create_table "user"
      [ sa.Column "id" sa.Integer false;
        sa.Column "username" sa.String_ true;
        sa.Column "email" sa.String_ true;
        sa.PrimaryKeyConstraint ["id"] ];
    op.create_index (op.f "ix_user_email") "user" ["email"] true;
    op.create_index (op.f "ix_user_id") "user" ["id"] false;
    op.create_index (op.f "ix_user_username") "user" ["username"] true;
    op.create_table "files"
      [ sa.Column "id" sa.Integer false;
        sa.Column "Identifier_field" sa.Integer true;
        sa.Column "content" sa.String_ false;
        sa.ForeignKeyConstraint ["Identifier_field"] ["identifiers.id"]
                                (Some "CASCADE");
        sa.PrimaryKeyConstraint ["id"] ];
    op.create_index (op.f "ix_files_id") "files" ["id"] false;
    op.create_table "passes"
      [ sa.Column "id" sa.Integer false;
        sa.Column "Identifier_field" sa.Integer true;
        sa.Column "transformpass" sa.Text false;
        sa.ForeignKeyConstraint ["Identifier_field"] ["identifiers.id"]
                                (Some "CASCADE");
        sa.PrimaryKeyConstraint ["id"] ];
    op.create_index (op.f "ix_passes_id") "passes" ["id"] false ].

Definition downgrade : list op.operation :=
  [ op.drop_index (op.f "ix_passes_id") "passes";
    op.drop_table "passes";
    op.drop_index (op.f "ix_files_id") "files";
    op.drop_table "files";
    op.drop_index (op.f "ix_user_username") "user";
    op.drop_index (op.f "ix_user_id") "user";
    op.drop_index (op.f "ix_user_email") "user";
    op.drop_table "user";
    op.drop_index (op.f "ix_identifiers_id") "identifiers";
    op.drop_table "identifiers" ].

(** ** The schema catalog *)

Record Index := { ix_columns : list string; ix_unique : bool }.

Record Table := {
  tbl_items : list sa.SchemaItem;
  tbl_indexes : gmap string Index
}.

Abbreviation schema := (gmap string Table).

Inductive error :=
| SchemaConflict (name : string)        (* the name is already taken *)
| NoSuchObject (name : string)          (* table, index or column missing *)
| ReferentialViolation (name : string)  (* foreign key without its target,
                                           or target still referred to *)
| ConstraintViolation (columns : list string)  (* duplicate key *)
| DataError (name : string)             (* NULL, value or column refused *)
| CascadeDepth.                         (* cascade budget exhausted *)

Inductive result (A : Type) :=
| Ok (a : A)
| Err (e : error).
Arguments Ok {A} a.
Arguments Err {A} e.

(** *** What a table declares *)

(** ["table.column"] is split at its last dot. *)
Fixpoint split_ref (spec : string) : option (string * string) :=
  match spec with
  | EmptyString => None
  | String c rest =>
      match split_ref rest with
      | Some (t, col) => Some (String c t, col)
      | None => if Ascii.eqb c "."%char then Some (EmptyString, rest) else None
      end
  end.

Definition column_names (items : list sa.SchemaItem) : list string :=
  omap (λ it, match it with sa.Column n _ _ => Some n | _ => None end) items.

Definition columns (T : Table) : list (string * sa.TypeEngine * bool) :=
  omap (λ it, match it with
              | sa.Column n ty nl => Some (n, ty, nl)
              | _ => None
              end) (tbl_items T).

Definition column_type (T : Table) (c : string) : option sa.TypeEngine :=
  head (omap (λ '(n, ty, _), if decide (n = c) then Some ty else None)
             (columns T)).

Definition primary_key (T : Table) : list string :=
  mjoin (omap (λ it, match it with
                     | sa.PrimaryKeyConstraint cols => Some cols
                     | _ => None
                     end) (tbl_items T)).

Record ForeignKey := {
  fk_columns : list string;
  fk_table : string;
  fk_refcolumns : list string;
  fk_ondelete : option string
}.

(** A foreign key refers to the columns of one table. *)
Definition resolve_fk (cols refs : list string) (ondelete : option string)
    : option ForeignKey :=
  match mapM split_ref refs with
  | Some ((t, c) :: rest) =>
      if forallb (λ '(t', _), bool_decide (t' = t)) rest
      then Some {| fk_columns := cols; fk_table := t;
                   fk_refcolumns := c :: rest.*2; fk_ondelete := ondelete |}
      else None
  | _ => None
  end.

Definition foreign_keys (T : Table) : list ForeignKey :=
  omap (λ it, match it with
              | sa.ForeignKeyConstraint cols refs od => resolve_fk cols refs od
              | _ => None
              end) (tbl_items T).

(** A single integer primary-key column is filled in by the engine: it is
    the rowid of SQLite and a serial column in PostgreSQL. *)
Definition autoincrement_column (T : Table) : option string :=
  match primary_key T with
  | [c] => if bool_decide ((c, sa.Integer, false) ∈ columns T)
           then Some c else None
  | _ => None
  end.

(** ** Values and rows *)

(** Values as an engine stores and compares them: what a statement supplies
    reaches the table after whatever conversion the engine applies, and the
    model starts from there. *)
Inductive value :=
| NULL
| IntVal (z : Z)
| StrVal (s : string)
| BlobVal (bytes : list Byte.byte).

#[global] Instance byte_eq_dec : EqDecision Byte.byte :=
  Stdlib.Strings.Byte.byte_eq_dec.

#[global] Instance value_eq_dec : EqDecision value.
Proof. solve_decision. Defined.

Abbreviation row := (gmap string value).

(** A column a row does not mention is NULL. *)
Definition get (r : row) (c : string) : value := default NULL (r !! c).

Definition key (r : row) (cols : list string) : list value := get r <$> cols.

Definition has_null (vs : list value) : bool := bool_decide (NULL ∈ vs).

Definition is_null (v : value) : bool :=
  match v with NULL => true | _ => false end.

(** ** The engine *)

(** Modelled from the spec: the relational engine, which the specification
    treats as an external collaborator, is no code of the repository.  The
    record holds what the engines differ on.
    - [checks_references]: [CREATE TABLE] fails when the target of a foreign
      key is missing, and [DROP TABLE] fails on a table that a foreign key of
      another table points at (the ReferentialViolation of the
      specification).
    - [null_id_generates]: a row that gives NULL for its auto-increment
      column gets a generated id, as a row that does not mention the column
      does on every engine.
    - [accepts T c v]: column [c] of table [T] can hold the value [v], which
      is not NULL. *)
Record engine := {
  checks_references : bool;
  null_id_generates : bool;
  accepts : Table → string → value → bool
}.

(** PostgreSQL in these points: references are checked, a NULL id is a NULL,
    an integer column holds 32-bit integers and a text column holds text. *)
Definition postgresql : engine :=
  {| checks_references := true;
     null_id_generates := false;
     accepts := λ T c v,
       match column_type T c, v with
       | Some sa.Integer, IntVal z =>
           bool_decide (-2147483648 ≤ z ≤ 2147483647)
       | Some (sa.Text | sa.String_), StrVal _ => true
       | _, _ => false
       end |}.

(** SQLite in these points: references are not looked at by DDL, a NULL id
    asks for a generated one, the integer primary key holds 64-bit integers
    and no other column is typed. *)
Definition sqlite : engine :=
  {| checks_references := false;
     null_id_generates := true;
     accepts := λ T c v,
       if decide (autoincrement_column T = Some c)
       then match v with
            | IntVal z =>
                bool_decide (-9223372036854775808 ≤ z ≤ 9223372036854775807)
            | _ => false
            end
       else true |}.

(** ** The meaning of the operations *)

Definition has_column (s : schema) (t c : string) : bool :=
  match s !! t with
  | Some T => bool_decide (c ∈ column_names (tbl_items T))
  | None => false
  end.

(** A foreign-key target resolves when its table is in the catalog (or is
    the table being created) and has the column. *)
Definition ref_resolves (s : schema) (self : string)
    (items : list sa.SchemaItem) (spec : string) : bool :=
  match split_ref spec with
  | Some (t, c) =>
      if decide (t = self) then bool_decide (c ∈ column_names items)
      else has_column s t c
  | None => false
  end.

(** What every engine checks of a constraint: its columns are columns of
    the table, and a foreign key names as many columns on either side, all
    of one table. *)
Definition item_local (items : list sa.SchemaItem) (it : sa.SchemaItem)
    : bool :=
  match it with
  | sa.Column _ _ _ => true
  | sa.PrimaryKeyConstraint cols =>
      forallb (λ c, bool_decide (c ∈ column_names items)) cols
  | sa.ForeignKeyConstraint cols refs od =>
      forallb (λ c, bool_decide (c ∈ column_names items)) cols
      && bool_decide (length cols = length refs)
      && bool_decide (is_Some (resolve_fk cols refs od))
  end.

Definition item_resolves (s : schema) (self : string)
    (items : list sa.SchemaItem) (it : sa.SchemaItem) : bool :=
  match it with
  | sa.ForeignKeyConstraint _ refs _ =>
      forallb (ref_resolves s self items) refs
  | _ => true
  end.

Definition index_on (n : string) (T : Table) : Prop :=
  is_Some (tbl_indexes T !! n).

Definition index_exists (s : schema) (n : string) : Prop :=
  map_Exists (λ _ T, index_on n T) s.

(** Tables and indexes share their names. *)
Definition named (s : schema) (n : string) : Prop :=
  is_Some (s !! n) ∨ index_exists s n.

#[global] Instance index_exists_dec s n : Decision (index_exists s n).
Proof. unfold index_exists, index_on. apply _. Defined.

#[global] Instance named_dec s n : Decision (named s n).
Proof. unfold named. apply _. Defined.

Definition add_index (n : string) (ix : Index) (T : Table) : Table :=
  {| tbl_items := tbl_items T; tbl_indexes := <[n := ix]> (tbl_indexes T) |}.

Definition remove_index (n : string) (T : Table) : Table :=
  {| tbl_items := tbl_items T; tbl_indexes := delete n (tbl_indexes T) |}.

(** Table [t] is referenced when another table has a foreign key into it. *)
Definition refers_to (T : Table) (t : string) : Prop :=
  t ∈ fk_table <$> foreign_keys T.

Definition referenced (s : schema) (t : string) : Prop :=
  map_Exists (λ t' T, t' ≠ t ∧ refers_to T t) s.

#[global] Instance referenced_dec s t : Decision (referenced s t).
Proof. unfold referenced, refers_to. apply _. Defined.

(** Modelled from the spec: the engine's side of one [op] call, which is no
    code of the repository.  The statement Alembic emits for the call is
    executed on the catalog: [CREATE TABLE] and [CREATE INDEX] fail with
    SchemaConflict when the name exists, [CREATE TABLE] fails with
    ReferentialViolation when a foreign-key target is missing and the engine
    checks it, [CREATE INDEX] needs its table and columns, [DROP INDEX name]
    (the table Alembic is told is not part of the statement) and
    [DROP TABLE name] need the object to exist, and [DROP TABLE] fails with
    ReferentialViolation on a referenced table when the engine checks it. *)
Definition invoke (e : engine) (o : op.operation) (s : schema)
    : result schema :=
  match o with
  | op.create_table t items =>
      if decide (named s t) then Err (SchemaConflict t)
      else if negb (forallb (item_local items) items)
      then Err (NoSuchObject t)
      else if checks_references e
              && negb (forallb (item_resolves s t items) items)
      then Err (ReferentialViolation t)
      else Ok (<[t := {| tbl_items := items; tbl_indexes := ∅ |}]> s)
  | op.create_index n t cols u =>
      match s !! t with
      | None => Err (NoSuchObject t)
      | Some T =>
          if decide (named s n) then Err (SchemaConflict n)
          else if forallb (λ c, bool_decide (c ∈ column_names (tbl_items T)))
                          cols
          then Ok (<[t := add_index n {| ix_columns := cols;
                                         ix_unique := u |} T]> s)
          else Err (NoSuchObject n)
      end
  | op.drop_index n _ =>
      if decide (index_exists s n) then Ok (remove_index n <$> s)
      else Err (NoSuchObject n)
  | op.drop_table t =>
      match s !! t with
      | None => Err (NoSuchObject t)
      | Some _ =>
          if checks_references e && bool_decide (referenced s t)
          then Err (ReferentialViolation t)
          else Ok (delete t s)
      end
  end.

Inductive outcome :=
| Done (s : schema)
| Aborted (e : error) (s : schema).

(** Modelled from the spec: running a script against the engine.  The calls
    are made in order and the first one that raises ends the run (a failed
    migration step is fatal), in the catalog reached so far. *)
Fixpoint exec (e : engine) (ops : list op.operation) (s : schema) : outcome :=
  match ops with
  | [] => Done s
  | o :: rest =>
      match invoke e o s with
      | Ok s' => exec e rest s'
      | Err err => Aborted err s
      end
  end.

Definition final (r : outcome) : schema :=
  match r with Done s | Aborted _ s => s end.

(** Modelled from the spec: the migration runner, an external collaborator
    that wraps each operation in a transaction.  Where DDL is transactional
    a failed run is rolled back to the catalog it started from, otherwise
    what was done before the failure stays. *)
Definition migrate (e : engine) (transactional_ddl : bool)
    (ops : list op.operation) (s : schema) : schema :=
  match exec e ops s with
  | Done s' => s'
  | Aborted _ s' => if transactional_ddl then s else s'
  end.

(** The objects a script creates and drops, in the order of its calls. *)
Inductive object :=
| TableObj (name : string)
| IndexObj (name : string) (table_name : string).

#[global] Instance object_eq_dec : EqDecision object.
Proof. solve_decision. Defined.

Definition creates (o : op.operation) : option object :=
  match o with
  | op.create_table t _ => Some (TableObj t)
  | op.create_index n t _ _ => Some (IndexObj n t)
  | _ => None
  end.

Definition drops (o : op.operation) : option object :=
  match o with
  | op.drop_index n t => Some (IndexObj n t)
  | op.drop_table t => Some (TableObj t)
  | _ => None
  end.

Definition object_name (x : object) : string :=
  match x with TableObj n | IndexObj n _ => n end.

Definition table_names (objs : list object) : list string :=
  omap (λ x, match x with TableObj t => Some t | _ => None end) objs.

Definition index_names (objs : list object) : list string :=
  omap (λ x, match x with IndexObj n _ => Some n | _ => None end) objs.

Definition indexes_of (objs : list object) (t : string) : list string :=
  omap (λ x, match x with
             | IndexObj n t' => if decide (t' = t) then Some n else None
             | _ => None
             end) objs.

(** The tables and indexes the migration declares, and all of their names. *)
Definition declared_tables : list string := table_names (omap creates upgrade).
Definition declared_indexes : list string := index_names (omap creates upgrade).
Definition declared_names : list string := object_name <$> omap creates upgrade.

(** The table an operation is told, and the index it names. *)
Definition target_table (o : op.operation) : string :=
  match o with
  | op.create_table t _ | op.create_index _ t _ _
  | op.drop_index _ t | op.drop_table t => t
  end.

Definition target_index (o : op.operation) : option string :=
  match o with
  | op.create_index n _ _ _ | op.drop_index n _ => Some n
  | _ => None
  end.

Definition lookup_index (s : schema) (t n : string) : option Index :=
  T ← s !! t; tbl_indexes T !! n.

(** No name that the script creates is taken in the catalog; a name clashes
    when the script creates it and the catalog has it. *)
Definition fresh_for (ops : list op.operation) (s : schema) : Prop :=
  ∀ n, n ∈ object_name <$> omap creates ops → ¬ named s n.

Definition clash (ops : list op.operation) (s : schema) (n : string) : Prop :=
  n ∈ object_name <$> omap creates ops ∧ named s n.

(** The catalog holds none of the declared tables and none of the declared
    indexes. *)
Definition fresh (s : schema) : Prop :=
  (∀ t, t ∈ declared_tables → s !! t = None) ∧
  (∀ n, n ∈ declared_indexes → ¬ index_exists s n).

(** None of the declared names is in use in the catalog, for a table or for
    an index. *)
Definition unused (s : schema) : Prop :=
  ∀ n, n ∈ declared_names → ¬ named s n.

#[global] Instance fresh_for_dec ops s : Decision (fresh_for ops s).
Proof.
  refine (cast_if
    (decide (Forall (λ n, ¬ named s n) (object_name <$> omap creates ops))));
    unfold fresh_for; rewrite ?Forall_forall in *; tauto.
Defined.

#[global] Instance unused_dec s : Decision (unused s) := fresh_for_dec upgrade s.

#[global] Instance fresh_dec s : Decision (fresh s).
Proof.
  refine (cast_if_and
    (decide (Forall (λ t, s !! t = None) declared_tables))
    (decide (Forall (λ n, ¬ index_exists s n) declared_indexes)));
    unfold fresh; rewrite ?Forall_forall in *; tauto.
Defined.

Definition column_decl (s : schema) (t c : string)
    : option (sa.TypeEngine * bool) :=
  T ← s !! t;
  head (omap (λ it, match it with
                    | sa.Column n ty nl =>
                        if decide (n = c) then Some (ty, nl) else None
                    | _ => None
                    end) (tbl_items T)).

(** The catalog [upgrade] builds in an empty database, on any engine. *)
Definition fresh_schema : schema :=
  Eval vm_compute in final (exec postgresql upgrade ∅).

(** The revision history: the scripts of [alembic/versions]. *)
Record Revision := {
  rev_id : string;
  rev_down : option string;
  rev_upgrade : list op.operation;
  rev_downgrade : list op.operation
}.

Definition this_revision : Revision :=
  {| rev_id := revision; rev_down := down_revision;
     rev_upgrade := upgrade; rev_downgrade := downgrade |}.

Definition versions : list Revision := [this_revision].

Definition is_root (r : Revision) : Prop := rev_down r = None.

(** ** Rows in tables, and the statements that change them *)

Record database := {
  db_schema : schema;
  db_rows : gmap string (list row)
}.

Definition rows_of (db : database) (t : string) : list row :=
  default [] (db_rows db !! t).

Definition set_rows (t : string) (rs : list row) (db : database) : database :=
  {| db_schema := db_schema db; db_rows := <[t := rs]> (db_rows db) |}.

Definition total_rows (db : database) : nat :=
  map_fold (λ _ rs n, (length rs + n)%nat) 0%nat (db_rows db).

#[global] Instance result_ret : MRet result := λ _ a, Ok a.
#[global] Instance result_bind : MBind result := λ _ _ k m,
  match m with Ok a => k a | Err e => Err e end.

(** The keys that must not repeat: the primary key and every unique index. *)
Definition unique_keys (T : Table) : list (list string) :=
  match primary_key T with [] => [] | pk => [pk] end
  ++ omap (λ '(_, ix), if ix_unique ix then Some (ix_columns ix) else None)
          (map_to_list (tbl_indexes T)).

(** The foreign keys of the catalog that point at table [t]. *)
Definition referencing (s : schema) (t : string)
    : list (string * ForeignKey) :=
  '(c, T) ← map_to_list s;
  fk ← filter (λ fk, fk_table fk = t) (foreign_keys T);
  [(c, fk)].

(** Checks on one row: it mentions columns of the table only; a column
    declared NOT NULL and a primary-key column are not NULL; and the engine
    takes each value that is not NULL for its column. *)
Definition row_known (T : Table) (r : row) : bool :=
  bool_decide (map_Forall (λ c _, c ∈ column_names (tbl_items T)) r).

Definition row_complete (T : Table) (r : row) : bool :=
  forallb (λ '(c, _, nl),
             (nl || negb (is_null (get r c)))
             && negb (bool_decide (c ∈ primary_key T) && is_null (get r c)))
          (columns T).

Definition row_accepted (e : engine) (T : Table) (r : row) : bool :=
  forallb (λ '(c, _, _), is_null (get r c) || accepts e T c (get r c))
          (columns T).

Definition row_well_formed (e : engine) (T : Table) (r : row) : bool :=
  row_known T r && row_complete T r && row_accepted e T r.

(** Two rows collide on a key when neither holds a NULL in it and the key
    values agree. *)
Definition collides (cols : list string) (r r0 : row) : bool :=
  negb (has_null (key r cols)) && bool_decide (key r cols = key r0 cols).

Definition first_collision (T : Table) (r : row) (rs : list row)
    : option (list string) :=
  list_find (λ cols, existsb (collides cols r) rs = true) (unique_keys T)
  ≫= λ hit, Some hit.2.

Fixpoint rows_unique (cols : list string) (rs : list row) : bool :=
  match rs with
  | [] => true
  | r :: rest => negb (existsb (collides cols r) rest) && rows_unique cols rest
  end.

Definition first_duplicate (T : Table) (rs : list row)
    : option (list string) :=
  list_find (λ cols, rows_unique cols rs = false) (unique_keys T)
  ≫= λ hit, Some hit.2.

(** A child row satisfies a foreign key when its key holds a NULL or some
    parent row carries the same values in the referenced columns. *)
Definition fk_satisfied (db : database) (fk : ForeignKey) (r : row) : bool :=
  has_null (key r (fk_columns fk))
  || existsb (λ p, bool_decide (key p (fk_refcolumns fk)
                                = key r (fk_columns fk)))
             (rows_of db (fk_table fk)).

(** Every child of table [t] still has its parent. *)
Definition children_satisfied (db : database) (t : string) : bool :=
  forallb (λ '(c, fk), forallb (fk_satisfied db fk) (rows_of db c))
          (referencing (db_schema db) t).

(** Modelled from the spec: all primary keys are auto-incrementing integers,
    and the engine that fills them in is no code of the repository.  The
    row that is stored: where the table has an auto-increment column and the
    row does not mention it, the column gets the id the engine generated;
    where the row gives NULL for it, the engine decides. *)
Definition with_autoincrement (e : engine) (T : Table) (generated : Z)
    (r : row) : row :=
  match autoincrement_column T with
  | Some c =>
      match r !! c with
      | None => <[c := IntVal generated]> r
      | Some NULL =>
          if null_id_generates e then <[c := IntVal generated]> r else r
      | Some _ => r
      end
  | None => r
  end.

(** Modelled from the spec: the engine's INSERT, which is no code of the
    repository.  [generated] is the id the engine's generator hands out for
    this statement; nothing is assumed of it, so it may be an id that is in
    use, as after rows were inserted with ids of their own.  The row is
    refused with DataError when it does not fit the table, with
    ConstraintViolation when it repeats a key, and with ReferentialViolation
    when a foreign key of it finds no parent. *)
Definition insert_row (e : engine) (generated : Z) (t : string) (r : row)
    (db : database) : result database :=
  match db_schema db !! t with
  | None => Err (NoSuchObject t)
  | Some T =>
      let rs := rows_of db t in
      let r' := with_autoincrement e T generated r in
      if negb (row_well_formed e T r') then Err (DataError t)
      else match first_collision T r' rs with
           | Some cols => Err (ConstraintViolation cols)
           | None =>
               let db' := set_rows t (rs ++ [r']) db in
               if forallb (λ fk, fk_satisfied db' fk r') (foreign_keys T)
               then Ok db'
               else Err (ReferentialViolation t)
           end
  end.

(** Modelled from the spec: the engine's UPDATE, which is no code of the
    repository.  The selected rows take the new values; the statement is
    refused when a row no longer fits the table, when a key repeats, or when
    a row of this table or of a table that refers to it is left without its
    parent. *)
Definition update_rows (e : engine) (t : string) (where_ : row → bool)
    (set_ : row) (db : database) : result database :=
  match db_schema db !! t with
  | None => Err (NoSuchObject t)
  | Some T =>
      let rs' := (λ r, if where_ r then set_ ∪ r else r) <$> rows_of db t in
      if negb (forallb (row_well_formed e T) rs') then Err (DataError t)
      else match first_duplicate T rs' with
           | Some cols => Err (ConstraintViolation cols)
           | None =>
               let db' := set_rows t rs' db in
               if forallb (λ fk, forallb (fk_satisfied db' fk) rs')
                          (foreign_keys T)
                  && children_satisfied db' t
               then Ok db'
               else Err (ReferentialViolation t)
           end
  end.

Definition references (fk : ForeignKey) (gone : list row) (r : row) : bool :=
  negb (has_null (key r (fk_columns fk)))
  && existsb (λ p, bool_decide (key p (fk_refcolumns fk)
                                = key r (fk_columns fk))) gone.

(** Modelled from the spec: the engine's DELETE, which is no code of the
    repository.  The rows of [t] selected by [where_] go; each foreign key
    that points at [t] either cascades to the child rows that reference a
    deleted row ([ON DELETE CASCADE]) or rejects the statement when such a
    child row exists.  The recursion follows the cascade; every level that
    goes on removes at least one row, so one more than the number of rows
    bounds it. *)
Fixpoint delete_from (fuel : nat) (t : string) (where_ : row → bool)
    (db : database) : result database :=
  match fuel with
  | O => Err CascadeDepth
  | S fuel' =>
      let gone := filter (λ r, where_ r = true) (rows_of db t) in
      match gone with
      | [] => Ok db
      | _ :: _ =>
          foldl (λ acc '(c, fk),
                   db' ← acc;
                   if decide (fk_ondelete fk = Some "CASCADE")
                   then delete_from fuel' c (references fk gone) db'
                   else if existsb (references fk gone) (rows_of db' c)
                        then Err (ReferentialViolation c)
                        else Ok db')
                (Ok (set_rows t (filter (λ r, where_ r = false)
                                        (rows_of db t)) db))
                (referencing (db_schema db) t)
      end
  end.

(** The statement as issued: the table must exist, and the budget is one
    more than the number of rows in the database. *)
Definition delete_rows (t : string) (where_ : row → bool) (db : database)
    : result database :=
  match db_schema db !! t with
  | None => Err (NoSuchObject t)
  | Some _ => delete_from (S (total_rows db)) t where_ db
  end.

Definition delete_step (fuel : nat) (gone : list row)
    (acc : result database) (x : string * ForeignKey) : result database :=
  let '(c, fk) := x in
  db' ← acc;
  if decide (fk_ondelete fk = Some "CASCADE")
  then delete_from fuel c (references fk gone) db'
  else if existsb (references fk gone) (rows_of db' c)
       then Err (ReferentialViolation c)
       else Ok db'.

(** A statement; an INSERT comes with the id the engine generates for it. *)
Inductive statement :=
| INSERT (t : string) (r : row) (generated : Z)
| UPDATE (t : string) (where_ : row → bool) (set_ : row)
| DELETE (t : string) (where_ : row → bool).

Definition execute (e : engine) (st : statement) (db : database)
    : result database :=
  match st with
  | INSERT t r g => insert_row e g t r db
  | UPDATE t w a => update_rows e t w a db
  | DELETE t w => delete_rows t w db
  end.

(** The database right after the migration: the catalog built by [upgrade],
    no rows.  A statement that fails leaves the database as it was, so the
    reachable states are those produced by successful statements. *)
Definition initial_db : database :=
  {| db_schema := fresh_schema; db_rows := ∅ |}.

Inductive reachable (e : engine) : database → Prop :=
| reach_init : reachable e initial_db
| reach_step db st db' :
    reachable e db → execute e st db = Ok db' → reachable e db'.

Fixpoint run (e : engine) (sts : list statement) (db : database)
    : result database :=
  match sts with
  | [] => Ok db
  | st :: rest => db' ← execute e st db; run e rest db'
  end.

(** The example of the specification: one identifier with a file and a
    pass attached to it, and two users; the ids are generated 1, 2, ... in
    each table. *)
Definition scenario : list statement :=
  [ INSERT "identifiers" {[ "Identifier" := StrVal "mod.cpp" ]} 1;
    INSERT "files" {[ "Identifier_field" := IntVal 1;
                      "content" := StrVal "int main(){}" ]} 1;
    INSERT "passes" {[ "Identifier_field" := IntVal 1;
                       "transformpass" := StrVal "InstCombine" ]} 1;
    INSERT "user" {[ "username" := StrVal "ada";
                     "email" := StrVal "ada@example.org" ]} 1;
    INSERT "user" ∅ 2 ].

Definition scenario_db : database :=
  Eval vm_compute in
    match run postgresql scenario initial_db with
    | Ok db => db
    | Err _ => initial_db
    end.

(** A user row inserted under an id of its own choosing, 1, before the
    engine generated any. *)
Definition explicit_id_db : database :=
  Eval vm_compute in
    match run postgresql [INSERT "user" {[ "id" := IntVal 1 ]} 1] initial_db
    with
    | Ok db => db
    | Err _ => initial_db
    end.

(** The [user] table as [upgrade] creates it. *)
Definition user_table : Table :=
  Eval vm_compute in
    default {| tbl_items := []; tbl_indexes := ∅ |} (fresh_schema !! "user").

(** The foreign key that [files] and [passes] declare. *)
Definition identifier_fk : ForeignKey :=
  {| fk_columns := ["Identifier_field"]; fk_table := "identifiers";
     fk_refcolumns := ["id"]; fk_ondelete := Some "CASCADE" |}.

(** Referential integrity of the child tables. *)
Definition no_orphans (db : database) : Prop :=
  ∀ t r, t ∈ ["files"; "passes"] → r ∈ rows_of db t →
    get r "Identifier_field" = NULL ∨
    ∃ p, p ∈ rows_of db "identifiers" ∧
         get p "id" = get r "Identifier_field".

(** ** Further notions about scripts and statements *)

#[global] Instance operation_eq_dec : EqDecision op.operation.
Proof. solve_decision. Defined.

#[global] Instance Index_eq_dec : EqDecision Index.
Proof. solve_decision. Defined.

#[global] Instance Table_eq_dec : EqDecision Table.
Proof. solve_decision. Defined.

(** The table each created index is put on. *)
Definition index_sites (objs : list object) : list (string * string) :=
  omap (λ x, match x with IndexObj n t => Some (n, t) | _ => None end) objs.

(** The migration is installed in a catalog when every index it declares
    sits on the table it was created on (so the four tables are there). *)
Definition installed (s : schema) : Prop :=
  ∀ n t, (n, t) ∈ index_sites (omap creates upgrade) →
         is_Some (lookup_index s t n).

(** The table a statement is addressed to, and the tables its cascade can
    reach. *)
Definition target (st : statement) : string :=
  match st with INSERT t _ _ | UPDATE t _ _ | DELETE t _ => t end.

Definition cascades_to (st : statement) (t' : string) : Prop :=
  match st with
  | DELETE t _ => t = "identifiers" ∧ t' ∈ ["files"; "passes"]
  | _ => False
  end.

(** Every stored row fits its table, and no key repeats. *)
Definition rows_well_formed (e : engine) (db : database) : Prop :=
  ∀ t T r, db_schema db !! t = Some T → r ∈ rows_of db t →
           row_well_formed e T r = true.

Definition keys_unique (db : database) : Prop :=
  ∀ t T cols, db_schema db !! t = Some T → cols ∈ unique_keys T →
              rows_unique cols (rows_of db t) = true.

(** Two catalogs are apart when no name is in use in both. *)
Definition apart (a s : schema) : Prop :=
  ∀ n, named a n → named s n → False.

(** ** Example catalogs *)

(** A catalog that already holds the runner's own bookkeeping table. *)
Definition alembic_version_only : schema :=
  {[ "alembic_version" :=
       {| tbl_items := [ sa.Column "version_num" sa.String_ false;
                         sa.PrimaryKeyConstraint ["version_num"] ];
          tbl_indexes := ∅ |} ]}.

(** A catalog in which somebody else already made a [user] table. *)
Definition user_taken : schema :=
  {[ "user" :=
       {| tbl_items := [ sa.Column "name" sa.String_ false ];
          tbl_indexes := ∅ |} ]}.

(** A catalog with none of the declared tables and none of the declared
    indexes, in which a table goes by the name of a declared index. *)
Definition index_name_taken : schema :=
  {[ "ix_identifiers_id" :=
       {| tbl_items := [ sa.Column "id" sa.Integer false ];
          tbl_indexes := ∅ |} ]}.

(** The catalog after [upgrade] and one more index, which the migration does
    not declare, on the [user] table. *)
Definition with_extra_index : schema :=
  Eval vm_compute in
    final (exec postgresql
             (upgrade ++ [op.create_index "ix_user_name_email" "user"
                            ["username"; "email"] false]) ∅).

(** The catalog after [upgrade] next to a table of somebody else's that
    keeps a foreign key into [identifiers]. *)
Definition with_referrer : schema :=
  Eval vm_compute in
    final (exec postgresql
             (upgrade ++ [op.create_table "notes"
                            [ sa.Column "id" sa.Integer false;
                              sa.Column "about" sa.Integer true;
                              sa.ForeignKeyConstraint ["about"]
                                ["identifiers.id"] None;
                              sa.PrimaryKeyConstraint ["id"] ]]) ∅).

(** Closed decidable facts are settled by evaluation. *)
Ltac by_compute := apply (bool_decide_unpack _); vm_compute; exact I.

(** * Properties of the catalog operations *)

Section catalog.

Implicit Types (e : engine) (s a : schema).
Implicit Types (o : op.operation) (ops : list op.operation).
Implicit Types (t n m : string) (T : Table).

Lemma index_exists_lookup s n :
  index_exists s n ↔ ∃ t, is_Some (lookup_index s t n).
Proof.
  unfold index_exists, lookup_index. rewrite map_Exists_lookup. split.
  - intros (t & T & Ht & Hn). exists t. by rewrite Ht.
  - intros (t & i & Hi). destruct (s !! t) as [T|] eqn:Ht; [|done].
    exists t, T. split; [done|]. by exists i.
Qed.

Lemma map_Exists_union {A} (P : string → A → Prop) (m1 m2 : gmap string A) :
  m1 ##ₘ m2 → map_Exists P (m1 ∪ m2) ↔ map_Exists P m1 ∨ map_Exists P m2.
Proof.
  intros Hd. rewrite !map_Exists_lookup. split.
  - intros (i & x & Hx & ?). apply (lookup_union_Some _ _ _ _ Hd) in Hx.
    destruct Hx; [left|right]; eauto.
  - intros [(i & x & Hx & ?)|(i & x & Hx & ?)]; exists i, x; split; try done.
    + by apply lookup_union_Some_l.
    + apply lookup_union_Some; auto.
Qed.

Lemma index_exists_union a s n :
  a ##ₘ s → index_exists (a ∪ s) n ↔ index_exists a n ∨ index_exists s n.
Proof. apply map_Exists_union. Qed.

Lemma referenced_union a s t :
  a ##ₘ s → referenced (a ∪ s) t ↔ referenced a t ∨ referenced s t.
Proof. apply map_Exists_union. Qed.

Lemma named_union a s n :
  a ##ₘ s → named (a ∪ s) n ↔ named a n ∨ named s n.
Proof.
  intros Hd. unfold named.
  rewrite lookup_union_is_Some, (index_exists_union _ _ _ Hd). tauto.
Qed.

Lemma apart_disjoint a s : apart a s → a ##ₘ s.
Proof.
  intros H. apply map_disjoint_spec. intros t T T' HT HT'.
  apply (H t); left; by eexists.
Qed.

Lemma apart_empty s : apart ∅ s.
Proof.
  intros n [[T HT]|Hix] _.
  - by rewrite lookup_empty in HT.
  - by apply map_Exists_empty in Hix.
Qed.

(** *** Looking up an index after a change *)

Lemma lookup_index_insert s t T t' n :
  lookup_index (<[t := T]> s) t' n
  = if decide (t = t') then tbl_indexes T !! n else lookup_index s t' n.
Proof.
  unfold lookup_index. destruct (decide (t = t')) as [->|].
  - by rewrite lookup_insert_eq.
  - by rewrite lookup_insert_ne.
Qed.

Lemma lookup_index_remove s t n m :
  lookup_index (remove_index n <$> s) t m
  = if decide (n = m) then None else lookup_index s t m.
Proof.
  unfold lookup_index. rewrite lookup_fmap.
  destruct (s !! t) as [T|]; simpl.
  - destruct (decide (n = m)) as [->|].
    + apply lookup_delete_eq.
    + by apply lookup_delete_ne.
  - by destruct (decide _).
Qed.

Lemma lookup_index_delete s t t' n :
  lookup_index (delete t s) t' n
  = if decide (t = t') then None else lookup_index s t' n.
Proof.
  unfold lookup_index. destruct (decide (t = t')) as [->|].
  - by rewrite lookup_delete_eq.
  - by rewrite lookup_delete_ne.
Qed.

Lemma lookup_index_Some_table s t n :
  is_Some (lookup_index s t n) → is_Some (s !! t).
Proof.
  unfold lookup_index. destruct (s !! t); [by eexists|]. by intros [? ?].
Qed.

Lemma lookup_index_union_l a s t n :
  is_Some (a !! t) → lookup_index (a ∪ s) t n = lookup_index a t n.
Proof.
  intros [T HT]. unfold lookup_index.
  by rewrite (lookup_union_Some_l a s t T HT), HT.
Qed.

Lemma index_exists_remove s n m :
  index_exists (remove_index n <$> s) m ↔ n ≠ m ∧ index_exists s m.
Proof.
  rewrite !index_exists_lookup. split.
  - intros (t & Hix). rewrite lookup_index_remove in Hix.
    destruct (decide (n = m)); [by destruct Hix|]. split; [done|by exists t].
  - intros [Hne (t & Hix)]. exists t. rewrite lookup_index_remove.
    by destruct (decide (n = m)).
Qed.

Lemma index_exists_delete s t n :
  index_exists (delete t s) n → index_exists s n.
Proof.
  rewrite !index_exists_lookup. intros (t' & Hix).
  rewrite lookup_index_delete in Hix.
  destruct (decide (t = t')); [by destruct Hix|]. by exists t'.
Qed.

Lemma remove_index_id s n : ¬ index_exists s n → remove_index n <$> s = s.
Proof.
  intros Hn. apply map_eq. intros t. rewrite lookup_fmap.
  destruct (s !! t) as [T|] eqn:Ht; [|done]. simpl. f_equal.
  assert (tbl_indexes T !! n = None) as Hix.
  { destruct (tbl_indexes T !! n) as [ix|] eqn:Hix; [|done].
    destruct Hn. apply map_Exists_lookup. exists t, T. split; [done|].
    unfold index_on. by rewrite Hix. }
  destruct T as [items ixs]. unfold remove_index. simpl in *.
  f_equal. by apply delete_id.
Qed.

(** *** The names in use after a change *)

Lemma named_insert_new s t items n :
  named (<[t := {| tbl_items := items; tbl_indexes := ∅ |}]> s) n →
  n = t ∨ named s n.
Proof.
  intros [Hs|Hix].
  - apply lookup_insert_is_Some in Hs as [->|[_ ?]]; [by left|right; by left].
  - right. right. apply index_exists_lookup in Hix as (t' & Hix).
    rewrite lookup_index_insert in Hix.
    destruct (decide (t = t')).
    + simpl in Hix. rewrite lookup_empty in Hix. by destruct Hix.
    + apply index_exists_lookup. by exists t'.
Qed.

Lemma named_add_index s t T n ix m :
  s !! t = Some T → named (<[t := add_index n ix T]> s) m →
  m = n ∨ named s m.
Proof.
  intros HT [Hs|Hix].
  - right. left.
    apply lookup_insert_is_Some in Hs as [<-|[_ ?]]; [by eexists|done].
  - apply index_exists_lookup in Hix as (t' & Hix).
    rewrite lookup_index_insert in Hix.
    destruct (decide (t = t')) as [<-|].
    + simpl in Hix. destruct (decide (n = m)) as [->|Hne]; [by left|].
      right. right. rewrite lookup_insert_ne in Hix by done.
      apply index_exists_lookup. exists t. unfold lookup_index.
      by rewrite HT.
    + right. right. apply index_exists_lookup. by exists t'.
Qed.

Lemma named_remove_index s n m : named (remove_index n <$> s) m → named s m.
Proof.
  intros [Hs|Hix]; [left|right].
  - rewrite lookup_fmap in Hs. by apply fmap_is_Some in Hs.
  - by apply index_exists_remove in Hix as [_ ?].
Qed.

Lemma named_delete s t m : named (delete t s) m → named s m.
Proof.
  intros [Hs|Hix]; [left|right].
  - destruct (decide (t = m)) as [->|Hne].
    + rewrite lookup_delete_eq in Hs. by destruct Hs.
    + by rewrite lookup_delete_ne in Hs.
  - by eapply index_exists_delete.
Qed.

(** *** Resolving references in a larger catalog *)

Lemma has_column_union a s t c :
  has_column a t c = true → has_column (a ∪ s) t c = true.
Proof.
  unfold has_column. destruct (a !! t) as [T|] eqn:Ht; [|done].
  by rewrite (lookup_union_Some_l a s t T Ht).
Qed.

Lemma item_resolves_union a s t items it :
  item_resolves a t items it = true →
  item_resolves (a ∪ s) t items it = true.
Proof.
  destruct it as [| |cols refs od]; simpl; try done.
  intros Hr. rewrite forallb_forall in Hr. apply forallb_forall. intros x Hx.
  specialize (Hr x Hx). unfold ref_resolves in *.
  destruct (split_ref x) as [[t' c]|]; [|done].
  destruct (decide (t' = t)); [done|]. by apply has_column_union.
Qed.

(** *** Frame: what an operation leaves alone *)

(** A call that does not drop leaves the other tables as they are. *)
Lemma invoke_frame_table e o s s' t :
  invoke e o s = Ok s' → t ≠ target_table o → drops o = None →
  s' !! t = s !! t.
Proof.
  destruct o as [t' items|n' t' cols u|n' t'|t']; simpl; intros H Hne Hd;
    try discriminate Hd.
  - destruct (decide _); [done|]. destruct (negb _); [done|].
    destruct (_ && _); [done|]. injection H as <-.
    by rewrite lookup_insert_ne.
  - destruct (s !! t') as [T|]; [|done]. destruct (decide _); [done|].
    destruct (forallb _ _); [|done]. injection H as <-.
    by rewrite lookup_insert_ne.
Qed.

Lemma exec_frame_table e ops s t :
  t ∉ target_table <$> ops → Forall (λ o, drops o = None) ops →
  final (exec e ops s) !! t = s !! t.
Proof.
  intros Hn HF. revert s Hn. induction HF as [|o ops Ho _ IH]; intros s Hn;
    [done|].
  rewrite fmap_cons, not_elem_of_cons in Hn. destruct Hn as [Hne Hn].
  simpl. destruct (invoke e o s) as [s'|err] eqn:Ha; [|done].
  rewrite (IH s' Hn). by eapply invoke_frame_table.
Qed.

(** Any call leaves the columns and constraints of the other tables as
    they are. *)
Lemma invoke_frame_items e o s s' t :
  invoke e o s = Ok s' → t ≠ target_table o →
  tbl_items <$> (s' !! t) = tbl_items <$> (s !! t).
Proof.
  destruct o as [t' items|n' t' cols u|n' t'|t']; simpl; intros H Hne.
  - destruct (decide _); [done|]. destruct (negb _); [done|].
    destruct (_ && _); [done|]. injection H as <-.
    by rewrite lookup_insert_ne.
  - destruct (s !! t') as [T|]; [|done]. destruct (decide _); [done|].
    destruct (forallb _ _); [|done]. injection H as <-.
    by rewrite lookup_insert_ne.
  - destruct (decide _); [|done]. injection H as <-.
    rewrite lookup_fmap. by destruct (s !! t).
  - destruct (s !! t'); [|done]. destruct (_ && _); [done|].
    injection H as <-. by rewrite lookup_delete_ne.
Qed.

Lemma exec_frame_items e ops s t :
  t ∉ target_table <$> ops →
  tbl_items <$> (final (exec e ops s) !! t) = tbl_items <$> (s !! t).
Proof.
  revert s. induction ops as [|o ops IH]; intros s Hn; [done|].
  rewrite fmap_cons, not_elem_of_cons in Hn. destruct Hn as [Ho Hn].
  simpl. destruct (invoke e o s) as [s'|err] eqn:Ha; [|done].
  rewrite (IH s' Hn). by eapply invoke_frame_items.
Qed.

(** A call leaves an index alone unless it names it or drops its table. *)
Lemma invoke_frame_index e o s s' t n :
  invoke e o s = Ok s' → target_index o ≠ Some n → o ≠ op.drop_table t →
  lookup_index s' t n = lookup_index s t n.
Proof.
  destruct o as [t' items|n' t' cols u|n' t'|t']; simpl; intros H Hn Hd.
  - destruct (decide (named s t')) as [|Hnew]; [done|].
    destruct (negb _); [done|]. destruct (_ && _); [done|].
    injection H as <-. rewrite lookup_index_insert.
    destruct (decide (t' = t)) as [->|]; [|done]. simpl.
    unfold lookup_index. destruct (s !! t) as [T|] eqn:Ht; [|done].
    destruct Hnew. left. by eexists.
  - destruct (s !! t') as [T|] eqn:Ht; [|done]. destruct (decide _); [done|].
    destruct (forallb _ _); [|done]. injection H as <-.
    rewrite lookup_index_insert.
    destruct (decide (t' = t)) as [->|]; [|done]. simpl.
    unfold lookup_index. rewrite Ht. simpl.
    rewrite lookup_insert_ne; [done|congruence].
  - destruct (decide _); [|done]. injection H as <-.
    rewrite lookup_index_remove.
    destruct (decide (n' = n)); [congruence|done].
  - destruct (s !! t'); [|done]. destruct (_ && _); [done|].
    injection H as <-. rewrite lookup_index_delete.
    destruct (decide (t' = t)); [congruence|done].
Qed.

Lemma exec_frame_index e ops s t n :
  Forall (λ o, target_index o ≠ Some n ∧ o ≠ op.drop_table t) ops →
  lookup_index (final (exec e ops s)) t n = lookup_index s t n.
Proof.
  intros HF. revert s. induction HF as [|o ops [Hn Hd] _ IH]; intros s.
  - done.
  - simpl. destruct (invoke e o s) as [s'|err] eqn:Ha; [|done].
    rewrite IH. by eapply invoke_frame_index.
Qed.

(** A script that only drops creates no index. *)
Lemma invoke_drop_no_index e o s s' n :
  invoke e o s = Ok s' → creates o = None →
  index_exists s' n → index_exists s n.
Proof.
  destruct o as [t' items|n' t' cols u|n' t'|t']; simpl; intros H Hc;
    try discriminate Hc.
  - destruct (decide _); [|done]. injection H as <-.
    by intros [_ ?]%index_exists_remove.
  - destruct (s !! t'); [|done]. destruct (_ && _); [done|].
    injection H as <-. apply index_exists_delete.
Qed.

Lemma exec_drop_no_index e ops s s' n :
  Forall (λ o, creates o = None) ops → exec e ops s = Done s' →
  index_exists s' n → index_exists s n.
Proof.
  intros HF. revert s. induction HF as [|o ops Ho _ IH]; intros s; simpl.
  - by intros [= <-].
  - destruct (invoke e o s) as [s1|err] eqn:Ha; [|done]. intros Hrun Hex.
    eapply invoke_drop_no_index; [exact Ha|exact Ho|]. by eapply IH.
Qed.

(** *** Running a script next to a catalog that is apart

    What a script does to a catalog [a], it does to [a ∪ s] for any [s]
    that shares no name with [a], unless a name it creates is taken in [s]:
    then the first such creation raises a conflict.  Where the engine
    checks references, the tables the script drops must not be referred to
    from [s]. *)

Lemma fresh_for_cons o ops s :
  fresh_for [o] s → fresh_for ops s → fresh_for (o :: ops) s.
Proof.
  unfold fresh_for. intros H1 H2.
  change (o :: ops) with ([o] ++ ops)%list.
  rewrite omap_app, fmap_app. intros x [?|?]%elem_of_app; auto.
Qed.

Lemma clash_head o ops s n : clash [o] s n → clash (o :: ops) s n.
Proof.
  unfold clash. change (o :: ops) with ([o] ++ ops)%list.
  rewrite omap_app, fmap_app, elem_of_app. tauto.
Qed.

Lemma clash_tail o ops s n : clash ops s n → clash (o :: ops) s n.
Proof.
  unfold clash. change (o :: ops) with ([o] ++ ops)%list.
  rewrite omap_app, fmap_app, elem_of_app. tauto.
Qed.

Lemma fresh_for_no_clash ops s n : fresh_for ops s → ¬ clash ops s n.
Proof. intros Hf [Hin Hn]. by apply (Hf n). Qed.

Lemma invoke_frame_union e o a a1 s :
  apart a s →
  (checks_references e = true → ∀ t, o = op.drop_table t → ¬ referenced s t) →
  invoke e o a = Ok a1 →
  (fresh_for [o] s ∧ invoke e o (a ∪ s) = Ok (a1 ∪ s) ∧ apart a1 s)
  ∨ (∃ n, clash [o] s n ∧ invoke e o (a ∪ s) = Err (SchemaConflict n)).
Proof.
  intros Hap Href. pose proof (apart_disjoint a s Hap) as Hd.
  destruct o as [t items|n t cols u|n t|t]; simpl.
  - destruct (decide (named a t)) as [|Hna]; [done|].
    destruct (forallb (item_local items) items) eqn:Hl; [|done]. simpl.
    destruct (checks_references e
              && negb (forallb (item_resolves a t items) items)) eqn:Hr;
      [done|].
    intros [= <-].
    destruct (decide (named (a ∪ s) t)) as [Hn|Hn].
    + right. exists t. split; [|done]. split; [apply list_elem_of_here|].
      apply named_union in Hn; [|done]. by destruct Hn.
    + left.
      assert (checks_references e
              && negb (forallb (item_resolves (a ∪ s) t items) items)
              = false) as ->.
      { destruct (checks_references e); [|done]. simpl in *.
        apply negb_false_iff in Hr. apply negb_false_iff.
        apply forallb_forall. intros it Hit. apply item_resolves_union.
        by apply (proj1 (forallb_forall _ _) Hr). }
      split_and!.
      * intros x Hx. apply list_elem_of_In in Hx. simpl in Hx.
        destruct Hx as [<-|[]]. intros Hs. apply Hn.
        apply named_union; auto.
      * by rewrite insert_union_l.
      * intros m Hm Hs. apply named_insert_new in Hm as [->|Hm].
        -- apply Hn. apply named_union; auto.
        -- by apply (Hap m).
  - destruct (a !! t) as [T|] eqn:Ha; [|done].
    destruct (decide (named a n)) as [|Hna]; [done|].
    destruct (forallb _ _) eqn:Hc; [|done]. intros [= <-].
    rewrite (lookup_union_Some_l a s t T Ha).
    destruct (decide (named (a ∪ s) n)) as [Hn|Hn].
    + right. exists n. split; [|done]. split; [apply list_elem_of_here|].
      apply named_union in Hn; [|done]. by destruct Hn.
    + left. rewrite Hc. split_and!.
      * intros x Hx. apply list_elem_of_In in Hx. simpl in Hx.
        destruct Hx as [<-|[]]. intros Hs. apply Hn.
        apply named_union; auto.
      * by rewrite insert_union_l.
      * intros m Hm Hs. apply (named_add_index a t T) in Hm as [->|Hm];
          [|by apply (Hap m)|done].
        apply Hn. apply named_union; auto.
  - destruct (decide (index_exists a n)) as [Hex|]; [|done]. intros [= <-].
    assert (¬ index_exists s n) as Hns.
    { intros H. apply (Hap n); by right. }
    destruct (decide (index_exists (a ∪ s) n)) as [|Hn].
    2:{ destruct Hn. apply index_exists_union; auto. }
    left. split_and!.
    + intros x Hx. by apply list_elem_of_In in Hx.
    + by rewrite map_fmap_union, (remove_index_id s n Hns).
    + intros m Hm. apply Hap. by eapply named_remove_index.
  - destruct (a !! t) as [T|] eqn:Ha; [|done].
    destruct (checks_references e && bool_decide (referenced a t)) eqn:Hr;
      [done|].
    intros [= <-].
    assert (s !! t = None) as Hs by by eapply map_disjoint_Some_l.
    rewrite (lookup_union_Some_l a s t T Ha).
    assert (checks_references e && bool_decide (referenced (a ∪ s) t)
            = false) as ->.
    { destruct (checks_references e) eqn:Hc; [|done]. simpl in *.
      apply bool_decide_eq_false. apply bool_decide_eq_false in Hr.
      rewrite referenced_union by done. intros [?|?]; [done|].
      by apply (Href eq_refl t). }
    left. split_and!.
    + intros x Hx. by apply list_elem_of_In in Hx.
    + by rewrite delete_union, (delete_id s t Hs).
    + intros m Hm. apply Hap. by eapply named_delete.
Qed.

Lemma exec_frame e ops a a' s :
  apart a s →
  (checks_references e = true →
   ∀ t, op.drop_table t ∈ ops → ¬ referenced s t) →
  exec e ops a = Done a' →
  (fresh_for ops s ∧ exec e ops (a ∪ s) = Done (a' ∪ s))
  ∨ (∃ n a'', clash ops s n ∧ a'' ##ₘ s ∧
              exec e ops (a ∪ s) = Aborted (SchemaConflict n) (a'' ∪ s)).
Proof.
  revert a. induction ops as [|o ops IH]; intros a Hap Href; simpl.
  - intros [= <-]. left. split; [|done].
    intros x Hx. by apply list_elem_of_In in Hx.
  - destruct (invoke e o a) as [a1|err] eqn:Ha; [|done]. intros Hrun.
    destruct (invoke_frame_union e o a a1 s Hap) as
      [(Hf & -> & Hap1)|(n & Hc & ->)]; [| exact Ha | |].
    + intros Hc t ->. apply (Href Hc). apply list_elem_of_here.
    + destruct (IH a1 Hap1) as [[Hf' ->]|(n & a'' & Hc & Hd'' & ->)];
        [|exact Hrun| |].
      * intros Hc t Ht. apply (Href Hc). by apply list_elem_of_further.
      * left. split; [|done]. by apply fresh_for_cons.
      * right. exists n, a''. split_and!; try done. by apply clash_tail.
    + right. exists n, a. split_and!; try done.
      * by apply clash_head.
      * by apply apart_disjoint.
Qed.

Lemma exec_app e ops1 ops2 s :
  exec e (ops1 ++ ops2) s
  = match exec e ops1 s with
    | Done s1 => exec e ops2 s1
    | Aborted err s1 => Aborted err s1
    end.
Proof.
  revert s. induction ops1 as [|o ops1 IH]; intros s; [done|].
  simpl. destruct (invoke e o s); [apply IH|done].
Qed.

Lemma exec_cons_Err e o ops s err :
  invoke e o s = Err err → exec e (o :: ops) s = Aborted err s.
Proof. intros H. simpl. rewrite H. reflexivity. Qed.

End catalog.

(** * The migration *)

Lemma Done_inj (s1 s2 : schema) : Done s1 = Done s2 → s1 = s2.
Proof. by intros [= ->]. Qed.

Lemma exec_upgrade_empty (e : engine) : exec e upgrade ∅ = Done fresh_schema.
Proof. destruct e as [[] ? ?]; vm_compute; reflexivity. Qed.

Lemma exec_downgrade_fresh_schema (e : engine) :
  exec e downgrade fresh_schema = Done ∅.
Proof. destruct e as [[] ? ?]; vm_compute; reflexivity. Qed.

(** The migration declares four tables and six indexes. *)
Lemma declared_names_eq :
  declared_tables = ["identifiers"; "user"; "files"; "passes"] ∧
  declared_indexes = ["ix_identifiers_id"; "ix_user_email"; "ix_user_id";
                      "ix_user_username"; "ix_files_id"; "ix_passes_id"] ∧
  declared_names = ["identifiers"; "ix_identifiers_id"; "user";
                    "ix_user_email"; "ix_user_id"; "ix_user_username";
                    "files"; "ix_files_id"; "passes"; "ix_passes_id"].
Proof. repeat split; reflexivity. Qed.

Lemma declared_names_split (n : string) :
  n ∈ declared_names ↔ n ∈ declared_tables ∨ n ∈ declared_indexes.
Proof.
  destruct declared_names_eq as (-> & -> & ->).
  rewrite !list_elem_of_In. simpl. tauto.
Qed.

Lemma upgrade_targets t : t ∈ target_table <$> upgrade → t ∈ declared_tables.
Proof.
  intros Ht. apply list_elem_of_In in Ht. apply list_elem_of_In.
  simpl in *. tauto.
Qed.

Lemma downgrade_targets t :
  t ∈ target_table <$> downgrade → t ∈ declared_tables.
Proof.
  intros Ht. apply list_elem_of_In in Ht. apply list_elem_of_In.
  simpl in *. tauto.
Qed.

Lemma upgrade_only_creates : Forall (λ o, drops o = None) upgrade.
Proof. repeat constructor. Qed.

Lemma downgrade_only_drops : Forall (λ o, creates o = None) downgrade.
Proof. repeat constructor. Qed.

Lemma upgrade_drops_no_table (t : string) : op.drop_table t ∉ upgrade.
Proof.
  intros H. apply list_elem_of_In in H. simpl in H.
  repeat (destruct H as [H|H]; [discriminate H|]). destruct H.
Qed.

Lemma downgrade_drops_declared (t : string) :
  op.drop_table t ∈ downgrade → t ∈ declared_tables.
Proof.
  intros H. apply downgrade_targets. apply list_elem_of_fmap.
  by exists (op.drop_table t).
Qed.

Lemma fresh_schema_tables (t : string) :
  is_Some (fresh_schema !! t) ↔ t ∈ declared_tables.
Proof.
  split.
  - intros [T HT].
    assert (map_Forall (λ t _, t ∈ declared_tables) fresh_schema) as Hall
      by by_compute.
    exact (Hall t T HT).
  - intros H. apply list_elem_of_In in H. simpl in H.
    repeat (destruct H as [<-|H]; [vm_compute; by eexists|]). destruct H.
Qed.

Lemma fresh_schema_dom t T :
  fresh_schema !! t = Some T → t ∈ declared_tables.
Proof. intros HT. apply fresh_schema_tables. by eexists. Qed.

Lemma fresh_schema_indexes (n : string) :
  index_exists fresh_schema n ↔ n ∈ declared_indexes.
Proof.
  split.
  - intros (t & T & HT & ix & Hix)%map_Exists_lookup.
    assert (map_Forall (λ _ T, map_Forall (λ n _, n ∈ declared_indexes)
                                          (tbl_indexes T)) fresh_schema)
      as Hall by by_compute.
    exact (Hall t T HT n ix Hix).
  - intros H. apply list_elem_of_In in H. simpl in H.
    repeat (destruct H as [<-|H]; [by_compute|]). destruct H.
Qed.

Lemma named_fresh_schema (n : string) :
  named fresh_schema n ↔ n ∈ declared_names.
Proof.
  unfold named.
  rewrite fresh_schema_tables, fresh_schema_indexes, declared_names_split.
  tauto.
Qed.

Lemma unused_apart s : unused s → apart fresh_schema s.
Proof. intros Hu n Hn Hs. apply (Hu n); [by apply named_fresh_schema|done]. Qed.

Lemma unused_disjoint s : unused s → fresh_schema ##ₘ s.
Proof. intros Hu. by apply apart_disjoint, unused_apart. Qed.

Lemma installed_fresh_schema : installed fresh_schema.
Proof.
  intros n t Hin. apply list_elem_of_In in Hin. simpl in Hin.
  repeat (destruct Hin as [[= <- <-]|Hin]; [by_compute|]). destruct Hin.
Qed.

Lemma downgrade_creates_nothing s n : ¬ clash downgrade s n.
Proof. intros [Hin _]. apply list_elem_of_In in Hin. exact Hin. Qed.

(** What [upgrade] does in any catalog: it installs its four tables next to
    what is there, or stops at the first declared name that is taken. *)
Lemma exec_upgrade (e : engine) s :
  (unused s ∧ exec e upgrade s = Done (fresh_schema ∪ s))
  ∨ (∃ n a, clash upgrade s n ∧ a ##ₘ s ∧
            exec e upgrade s = Aborted (SchemaConflict n) (a ∪ s)).
Proof.
  pose proof (exec_frame e upgrade ∅ fresh_schema s (apart_empty s)) as H.
  rewrite (left_id_L ∅ (∪) s) in H. apply H.
  - intros _ t Ht. by destruct (upgrade_drops_no_table t).
  - apply exec_upgrade_empty.
Qed.

Lemma exec_upgrade_unused (e : engine) s :
  unused s → exec e upgrade s = Done (fresh_schema ∪ s).
Proof.
  intros Hf. destruct (exec_upgrade e s) as [[_ ?]|(n & a & Hc & _)]; [done|].
  by destruct (fresh_for_no_clash upgrade s n).
Qed.

Lemma exec_upgrade_done (e : engine) s s' :
  exec e upgrade s = Done s' → unused s ∧ s' = fresh_schema ∪ s.
Proof.
  intros H. destruct (exec_upgrade e s) as [[? H']|(n & a & _ & _ & H')];
    rewrite H' in H; [|discriminate].
  apply Done_inj in H. split; [assumption|by symmetry].
Qed.

Lemma exec_downgrade_installed (e : engine) s :
  apart fresh_schema s →
  (checks_references e = true →
   ∀ t, t ∈ declared_tables → ¬ referenced s t) →
  exec e downgrade (fresh_schema ∪ s) = Done s.
Proof.
  intros Hap Href.
  destruct (exec_frame e downgrade fresh_schema ∅ s Hap)
    as [[_ H]|(n & a & Hc & _)].
  - intros Hc t Ht. apply (Href Hc). by apply downgrade_drops_declared.
  - apply exec_downgrade_fresh_schema.
  - by rewrite (left_id_L ∅ (∪) s) in H.
  - by destruct (downgrade_creates_nothing s n).
Qed.

Lemma exec_upgrade_taken (e : engine) (s : schema) :
  is_Some (s !! "identifiers") →
  exec e upgrade s = Aborted (SchemaConflict "identifiers") s.
Proof.
  intros HT. unfold upgrade. apply exec_cons_Err. simpl.
  destruct (decide _) as [|Hn]; [done|]. destruct Hn. by left.
Qed.

Lemma exec_downgrade_no_index (e : engine) (s : schema) :
  ¬ index_exists s "ix_passes_id" →
  exec e downgrade s = Aborted (NoSuchObject "ix_passes_id") s.
Proof.
  intros Hs. unfold downgrade. apply exec_cons_Err. simpl.
  destruct (decide _); [by destruct Hs|done].
Qed.

(** C1 as stated fails.  A catalog can hold none of the four tables and no
    index at all and still have a declared index name in use, for a table:
    tables and indexes share their names.  There [upgrade] stops with a
    conflict after it has created the identifiers table, and running
    [downgrade] after it does not take that table away again. *)
Lemma upgrade_fails_on_taken_name :
  fresh index_name_taken ∧
  index_name_taken !! "identifiers" = None ∧
  ∀ e : engine,
    (∃ s', exec e upgrade index_name_taken
             = Aborted (SchemaConflict "ix_identifiers_id") s' ∧
           is_Some (s' !! "identifiers")) ∧
    is_Some (migrate e false downgrade
               (migrate e false upgrade index_name_taken) !! "identifiers").
Proof.
  split; [by_compute|]. split; [reflexivity|].
  intros [[] ? ?]; (split; [eexists; split; [vm_compute; reflexivity|]|]);
    vm_compute; eexists; reflexivity.
Qed.

(** C1, amended.  In every catalog in which none of the ten declared names
    (four tables, six indexes) is in use, neither for a table nor for an
    index, and, where the engine checks references, no table has a foreign
    key into one of the four tables, [upgrade] succeeds and [downgrade] run
    on its result succeeds and gives back exactly the starting catalog. *)
Theorem upgrade_downgrade_round_trip (e : engine) (s : schema) :
  unused s →
  (checks_references e = true →
   ∀ t, t ∈ declared_tables → ¬ referenced s t) →
  exec e upgrade s = Done (fresh_schema ∪ s) ∧
  exec e downgrade (fresh_schema ∪ s) = Done s ∧
  ∀ b, migrate e b downgrade (migrate e b upgrade s) = s.
Proof.
  intros Hf Href. pose proof (exec_upgrade_unused e s Hf) as Hu.
  pose proof (exec_downgrade_installed e s (unused_apart s Hf) Href) as Hd.
  split; [exact Hu|]. split; [exact Hd|].
  intros b. unfold migrate. rewrite Hu, Hd. reflexivity.
Qed.

Lemma upgrade_downgrade_round_trip_witness :
  exec postgresql upgrade alembic_version_only
    = Done (fresh_schema ∪ alembic_version_only) ∧
  exec postgresql downgrade (fresh_schema ∪ alembic_version_only)
    = Done alembic_version_only ∧
  ∀ b, migrate postgresql b downgrade
         (migrate postgresql b upgrade alembic_version_only)
       = alembic_version_only.
Proof.
  apply (upgrade_downgrade_round_trip postgresql alembic_version_only).
  - by_compute.
  - intros _. apply Forall_forall. by_compute.
Defined.

(** The condition on references is needed where the engine checks them: with
    a table that refers to identifiers next to the four tables, [downgrade]
    is refused at its last call. *)
Lemma downgrade_refused_when_referenced :
  exec postgresql downgrade with_referrer
    = Aborted (ReferentialViolation "identifiers")
              (final (exec postgresql downgrade with_referrer)) ∧
  is_Some (final (exec postgresql downgrade with_referrer) !! "identifiers") ∧
  ∃ s', exec sqlite downgrade with_referrer = Done s' ∧
        s' !! "identifiers" = None.
Proof.
  split; [vm_compute; reflexivity|].
  split; [vm_compute; eexists; reflexivity|].
  eexists. split; vm_compute; reflexivity.
Qed.

(** C6. When one of the declared tables or one of the declared indexes is
    already in the catalog, [upgrade] raises a conflict on a declared name
    that is taken, and with transactional DDL the catalog after the failed
    run is the catalog it started from. *)
Theorem upgrade_conflict_aborts (e : engine) (s : schema) :
  (∃ t, t ∈ declared_tables ∧ is_Some (s !! t)) ∨
  (∃ n, n ∈ declared_indexes ∧ index_exists s n) →
  (∃ n s', clash upgrade s n ∧
           exec e upgrade s = Aborted (SchemaConflict n) s') ∧
  migrate e true upgrade s = s.
Proof.
  intros Htaken.
  destruct (exec_upgrade e s) as [[Hf _]|(n & a & Hc & _ & Hrun)].
  - exfalso. destruct Htaken as [(t & Hin & HT)|(n & Hin & Hex)].
    + apply (Hf t); [apply declared_names_split; by left|by left].
    + apply (Hf n); [apply declared_names_split; by right|by right].
  - split.
    + exists n, (a ∪ s). split; assumption.
    + unfold migrate. rewrite Hrun. reflexivity.
Qed.

Lemma upgrade_conflict_aborts_witness :
  (∃ n s', clash upgrade user_taken n ∧
           exec sqlite upgrade user_taken = Aborted (SchemaConflict n) s') ∧
  migrate sqlite true upgrade user_taken = user_taken.
Proof.
  apply (upgrade_conflict_aborts sqlite user_taken).
  left. exists "user". split; [by_compute|]. vm_compute. eexists. reflexivity.
Defined.

(** Without transactional DDL the same failed run leaves the tables created
    before the conflict behind. *)
Lemma upgrade_conflict_autocommit (e : engine) :
  exec e upgrade user_taken
    = Aborted (SchemaConflict "user") (migrate e false upgrade user_taken) ∧
  is_Some (migrate e false upgrade user_taken !! "identifiers") ∧
  user_taken !! "identifiers" = None.
Proof.
  destruct e as [[] ? ?]; vm_compute;
    (split; [reflexivity|]); (split; [eexists|]); reflexivity.
Qed.

(** C10 as stated fails for [downgrade]: an index that the migration does
    not declare, put on the [user] table after [upgrade], is gone after
    [downgrade], because dropping a table drops every index on it. *)
Lemma downgrade_drops_undeclared_index :
  ("ix_user_name_email" ∉ declared_indexes) ∧
  ("ix_user_name_email" ∉ declared_tables) ∧
  lookup_index with_extra_index "user" "ix_user_name_email"
    = Some {| ix_columns := ["username"; "email"]; ix_unique := false |} ∧
  ∀ e : engine,
    exec e downgrade with_extra_index = Done ∅ ∧
    lookup_index (final (exec e downgrade with_extra_index))
                 "user" "ix_user_name_email" = None.
Proof.
  split; [by_compute|]. split; [by_compute|].
  split; [vm_compute; reflexivity|].
  intros [[] ? ?]; vm_compute; split; reflexivity.
Qed.

Lemma upgrade_no_index_target n :
  n ∉ declared_indexes →
  ∀ t, Forall (λ o, target_index o ≠ Some n ∧ o ≠ op.drop_table t) upgrade.
Proof.
  intros Hn t. apply Forall_forall. intros o Ho.
  split; [|by apply list_elem_of_In in Ho; simpl in Ho;
            repeat (destruct Ho as [<-|Ho]; [discriminate|])].
  intros Ht. apply Hn. apply list_elem_of_In in Ho. simpl in Ho.
  repeat (destruct Ho as [<-|Ho];
          [first [discriminate Ht
                 | injection Ht as <-; apply list_elem_of_In; simpl; tauto]|]).
  destruct Ho.
Qed.

Lemma downgrade_no_index_target t n :
  t ∉ declared_tables → n ∉ declared_indexes →
  Forall (λ o, target_index o ≠ Some n ∧ o ≠ op.drop_table t) downgrade.
Proof.
  intros Ht Hn. apply Forall_forall. intros o Ho.
  apply list_elem_of_In in Ho. simpl in Ho. split.
  - intros Hix. apply Hn.
    repeat (destruct Ho as [<-|Ho];
            [first [discriminate Hix
                   | injection Hix as <-; apply list_elem_of_In; simpl;
                     tauto]|]).
    destruct Ho.
  - intros ->. apply Ht.
    repeat (destruct Ho as [Ho|Ho];
            [first [discriminate Ho
                   | injection Ho as <-; apply list_elem_of_In; simpl;
                     tauto]|]).
    destruct Ho.
Qed.

(** C10, amended.  A table that the migration does not declare stays in
    place with its columns and constraints under [upgrade] and under
    [downgrade], whether the run succeeds or stops half-way.  [upgrade]
    leaves such a table as it is, indexes included, and leaves every index
    whose name it does not declare as it is, on every table.  [downgrade]
    leaves an index as it is when its name is not a declared one and its
    table is not a declared one.  (It drops an index that goes by a declared
    name from whatever table carries it, and with each of the four tables
    every index on it.) *)
Theorem migration_frame (e : engine) (s : schema) (b : bool) (t n : string) :
  (t ∉ declared_tables →
     migrate e b upgrade s !! t = s !! t ∧
     tbl_items <$> (migrate e b downgrade s !! t) = tbl_items <$> (s !! t)) ∧
  (n ∉ declared_indexes →
     lookup_index (migrate e b upgrade s) t n = lookup_index s t n) ∧
  (t ∉ declared_tables → n ∉ declared_indexes →
     lookup_index (migrate e b downgrade s) t n = lookup_index s t n).
Proof.
  split; [|split].
  - intros Ht. split.
    + assert (t ∉ target_table <$> upgrade) as Hn
        by (intros ?; apply Ht; by apply upgrade_targets).
      pose proof (exec_frame_table e upgrade s t Hn upgrade_only_creates)
        as Hf.
      unfold migrate. destruct (exec e upgrade s); [exact Hf|].
      destruct b; [reflexivity|exact Hf].
    + assert (t ∉ target_table <$> downgrade) as Hn
        by (intros ?; apply Ht; by apply downgrade_targets).
      pose proof (exec_frame_items e downgrade s t Hn) as Hf.
      unfold migrate. destruct (exec e downgrade s); [exact Hf|].
      destruct b; [reflexivity|exact Hf].
  - intros Hn.
    pose proof (exec_frame_index e upgrade s t n
                  (upgrade_no_index_target n Hn t)) as Hf.
    unfold migrate. destruct (exec e upgrade s); [exact Hf|].
    destruct b; [reflexivity|exact Hf].
  - intros Ht Hn.
    pose proof (exec_frame_index e downgrade s t n
                  (downgrade_no_index_target t n Ht Hn)) as Hf.
    unfold migrate. destruct (exec e downgrade s); [exact Hf|].
    destruct b; [reflexivity|exact Hf].
Qed.

Lemma migration_frame_witness :
  (migrate sqlite false upgrade alembic_version_only !! "alembic_version"
     = alembic_version_only !! "alembic_version" ∧
   tbl_items <$> (migrate sqlite false downgrade alembic_version_only
                    !! "alembic_version")
     = tbl_items <$> (alembic_version_only !! "alembic_version")) ∧
  lookup_index (migrate sqlite false upgrade alembic_version_only)
               "alembic_version" "ix_user_name_email"
    = lookup_index alembic_version_only
                   "alembic_version" "ix_user_name_email" ∧
  lookup_index (migrate sqlite false downgrade alembic_version_only)
               "alembic_version" "ix_user_name_email"
    = lookup_index alembic_version_only
                   "alembic_version" "ix_user_name_email".
Proof.
  pose proof (migration_frame sqlite alembic_version_only false
                "alembic_version" "ix_user_name_email") as (H1 & H2 & H3).
  split; [apply H1; by_compute|].
  split; [apply H2; by_compute|apply H3; by_compute].
Defined.

(** C4. Every call of [upgrade] creates an object; the tables come in the
    order identifiers, user, files, passes, each one directly followed by the
    indexes declared on it, so identifiers (position 0) is created before
    files (position 6) and passes (position 8), which refer to it. *)
Theorem upgrade_creation_order :
  omap creates upgrade
    = [ TableObj "identifiers"; IndexObj "ix_identifiers_id" "identifiers";
        TableObj "user"; IndexObj "ix_user_email" "user";
        IndexObj "ix_user_id" "user"; IndexObj "ix_user_username" "user";
        TableObj "files"; IndexObj "ix_files_id" "files";
        TableObj "passes"; IndexObj "ix_passes_id" "passes" ] ∧
  length (omap creates upgrade) = length upgrade ∧
  declared_tables = ["identifiers"; "user"; "files"; "passes"] ∧
  omap creates upgrade
    = (t ← declared_tables;
       TableObj t :: ((λ n, IndexObj n t)
                        <$> indexes_of (omap creates upgrade) t)) ∧
  omap creates upgrade !! 0%nat = Some (TableObj "identifiers") ∧
  omap creates upgrade !! 6%nat = Some (TableObj "files") ∧
  omap creates upgrade !! 8%nat = Some (TableObj "passes").
Proof. repeat split; reflexivity. Qed.

(** The order is needed where the engine checks references: [files] cannot
    be created there while [identifiers], the target of its foreign key, is
    missing. *)
Lemma files_needs_identifiers items :
  upgrade !! 6%nat = Some (op.create_table "files" items) →
  exec postgresql [op.create_table "files" items] ∅
    = Aborted (ReferentialViolation "files") ∅.
Proof. intros [= <-]. vm_compute. reflexivity. Qed.

(** C5. Every call of [downgrade] drops an object, and the objects are
    dropped in exactly the reverse of the order in which [upgrade] creates
    them: passes' index, passes, files' index, files, the three user indexes
    (username, id, email), user, identifiers' index, identifiers. *)
Theorem downgrade_reverses_upgrade :
  omap drops downgrade = reverse (omap creates upgrade) ∧
  length (omap drops downgrade) = length downgrade ∧
  omap drops downgrade
    = [ IndexObj "ix_passes_id" "passes"; TableObj "passes";
        IndexObj "ix_files_id" "files"; TableObj "files";
        IndexObj "ix_user_username" "user"; IndexObj "ix_user_id" "user";
        IndexObj "ix_user_email" "user"; TableObj "user";
        IndexObj "ix_identifiers_id" "identifiers"; TableObj "identifiers" ].
Proof. repeat split; reflexivity. Qed.

(** C9. The script carries the revision identifier c6b6fb03f1c5, which no
    other script of the history shares, and its pointer to the previous
    revision is None: it is the root, and it depends on no other revision. *)
Theorem revision_is_root :
  revision = "c6b6fb03f1c5" ∧
  down_revision = None ∧
  depends_on = None ∧
  this_revision ∈ versions ∧
  is_root this_revision ∧
  NoDup (rev_id <$> versions) ∧
  ∀ r, r ∈ versions → rev_down r ≠ Some (rev_id this_revision).
Proof.
  split_and!; try reflexivity.
  - apply list_elem_of_here.
  - apply NoDup_singleton.
  - intros r Hr. apply list_elem_of_In in Hr. destruct Hr as [<-|[]].
    discriminate.
Qed.

(** C2 as stated fails: in the catalog built by [upgrade] no table has a
    column called identifier_text, identifier_ref or transform_pass. *)
Lemma spec_column_names_absent :
  column_decl fresh_schema "identifiers" "identifier_text" = None ∧
  column_decl fresh_schema "files" "identifier_ref" = None ∧
  column_decl fresh_schema "passes" "identifier_ref" = None ∧
  column_decl fresh_schema "passes" "transform_pass" = None.
Proof. vm_compute. repeat split; reflexivity. Qed.

(** C2, amended. After a successful [upgrade] the identifiers table has a
    non-null text column named Identifier, the files and passes tables each
    have a nullable integer column named Identifier_field, and the payload
    column of passes is the non-null text column transformpass; these
    tables have no other columns than id and, for files, content. *)
Theorem upgrade_column_names (e : engine) (s s' : schema) :
  exec e upgrade s = Done s' →
  column_decl s' "identifiers" "Identifier" = Some (sa.Text, false) ∧
  column_decl s' "files" "Identifier_field" = Some (sa.Integer, true) ∧
  column_decl s' "passes" "Identifier_field" = Some (sa.Integer, true) ∧
  column_decl s' "passes" "transformpass" = Some (sa.Text, false) ∧
  column_names <$> (tbl_items <$> s' !! "identifiers")
    = Some ["id"; "Identifier"] ∧
  column_names <$> (tbl_items <$> s' !! "files")
    = Some ["id"; "Identifier_field"; "content"] ∧
  column_names <$> (tbl_items <$> s' !! "passes")
    = Some ["id"; "Identifier_field"; "transformpass"].
Proof.
  intros [_ ->]%exec_upgrade_done.
  assert (∀ t T, fresh_schema !! t = Some T →
                 (fresh_schema ∪ s) !! t = Some T) as Hl
    by (intros t T; apply lookup_union_Some_l).
  unfold column_decl.
  rewrite (Hl "identifiers" _ eq_refl), (Hl "files" _ eq_refl),
          (Hl "passes" _ eq_refl).
  vm_compute. repeat split; reflexivity.
Qed.

Lemma upgrade_column_names_witness :
  column_decl fresh_schema "identifiers" "Identifier"
    = Some (sa.Text, false) ∧
  column_decl fresh_schema "files" "Identifier_field"
    = Some (sa.Integer, true) ∧
  column_decl fresh_schema "passes" "Identifier_field"
    = Some (sa.Integer, true) ∧
  column_decl fresh_schema "passes" "transformpass" = Some (sa.Text, false) ∧
  column_names <$> (tbl_items <$> fresh_schema !! "identifiers")
    = Some ["id"; "Identifier"] ∧
  column_names <$> (tbl_items <$> fresh_schema !! "files")
    = Some ["id"; "Identifier_field"; "content"] ∧
  column_names <$> (tbl_items <$> fresh_schema !! "passes")
    = Some ["id"; "Identifier_field"; "transformpass"].
Proof.
  apply (upgrade_column_names sqlite ∅ fresh_schema). vm_compute. reflexivity.
Defined.

(** * Properties of the row-level engine *)

Section engine.

Implicit Types (e : engine) (g : Z).
Implicit Types (db : database) (r p : row) (rs : list row).
Implicit Types (t c : string) (T : Table) (fk : ForeignKey).

Lemma rows_of_set_rows t t' rs db :
  rows_of (set_rows t rs db) t'
  = if decide (t = t') then rs else rows_of db t'.
Proof.
  unfold rows_of, set_rows. simpl. rewrite lookup_insert.
  by destruct (decide (t = t')).
Qed.

Lemma get_insert_eq r c v : get (<[c := v]> r) c = v.
Proof. unfold get. by rewrite lookup_insert_eq. Qed.

Lemma get_insert_ne r c c' v : c ≠ c' → get (<[c := v]> r) c' = get r c'.
Proof. intros. unfold get. by rewrite lookup_insert_ne. Qed.

Lemma has_null_singleton v : has_null [v] = is_null v.
Proof. by destruct v. Qed.

(** *** What a successful statement did *)

Lemma insert_row_Ok e g t r db db' :
  insert_row e g t r db = Ok db' →
  ∃ T, db_schema db !! t = Some T ∧
    let r' := with_autoincrement e T g r in
    db' = set_rows t (rows_of db t ++ [r']) db ∧
    row_well_formed e T r' = true ∧
    first_collision T r' (rows_of db t) = None ∧
    ∀ fk, fk ∈ foreign_keys T → fk_satisfied db' fk r' = true.
Proof.
  unfold insert_row. destruct (db_schema db !! t) as [T|]; [|done].
  simpl. destruct (row_well_formed e T _) eqn:Hwf; [|done]. simpl.
  destruct (first_collision T _ _) eqn:Hc; [done|].
  destruct (forallb _ _) eqn:Hfk; [|done]. intros [= <-].
  exists T. split_and!; try done.
  intros fk Hin. rewrite forallb_forall in Hfk. apply Hfk.
  by apply list_elem_of_In.
Qed.

Lemma update_rows_Ok e t w a db db' :
  update_rows e t w a db = Ok db' →
  ∃ T, db_schema db !! t = Some T ∧
    let rs' := (λ r, if w r then a ∪ r else r) <$> rows_of db t in
    db' = set_rows t rs' db ∧
    (∀ fk r, fk ∈ foreign_keys T → r ∈ rs' → fk_satisfied db' fk r = true) ∧
    children_satisfied db' t = true.
Proof.
  unfold update_rows. destruct (db_schema db !! t) as [T|]; [|done].
  simpl. destruct (forallb (row_well_formed e T) _); [|done]. simpl.
  destruct (first_duplicate T _); [done|].
  destruct (forallb _ _ && _) eqn:Hfk; [|done]. intros [= <-].
  apply andb_true_iff in Hfk as [Hfk Hch].
  exists T. split_and!; try done.
  intros fk r Hin Hr. rewrite forallb_forall in Hfk.
  specialize (Hfk fk (proj1 (list_elem_of_In _ _) Hin)).
  rewrite forallb_forall in Hfk. apply Hfk. by apply list_elem_of_In.
Qed.

(** *** Deleting *)

Lemma delete_from_S fuel t w db :
  delete_from (S fuel) t w db
  = let gone := filter (λ r, w r = true) (rows_of db t) in
    match gone with
    | [] => Ok db
    | _ :: _ =>
        foldl (delete_step fuel gone)
              (Ok (set_rows t (filter (λ r, w r = false) (rows_of db t)) db))
              (referencing (db_schema db) t)
    end.
Proof. reflexivity. Qed.

Lemma foldl_delete_step_Err fuel gone err l :
  foldl (delete_step fuel gone) (Err err) l = Err err.
Proof. induction l as [|[c fk] l IH]; [done|]. simpl. exact IH. Qed.

Lemma delete_from_schema fuel t w db db' :
  delete_from fuel t w db = Ok db' → db_schema db' = db_schema db.
Proof.
  revert t w db db'. induction fuel as [|fuel IH]; intros t w db db'; [done|].
  rewrite delete_from_S. cbv zeta.
  generalize (filter (λ r, w r = true) (rows_of db t)). intros gone.
  destruct gone as [|g gs]; [by intros [= <-]|].
  generalize (g :: gs). clear g gs. intros gone.
  assert (∀ l acc, (∀ d, acc = Ok d → db_schema d = db_schema db) →
            foldl (delete_step fuel gone) acc l = Ok db' →
            db_schema db' = db_schema db) as Hfold.
  { induction l as [|[c fk] l IHl]; intros acc Hacc; simpl.
    - intros ->. by apply Hacc.
    - apply IHl. intros d. destruct acc as [d0|e]; [|done]. simpl.
      destruct (decide _).
      + intros Hd. rewrite (IH _ _ _ _ Hd). by apply Hacc.
      + destruct (existsb _ _); [done|]. intros [= <-]. by apply Hacc. }
  apply Hfold. by intros d [= <-].
Qed.

Lemma execute_schema e st db db' :
  execute e st db = Ok db' → db_schema db' = db_schema db.
Proof.
  destruct st as [t r g|t w a|t w]; simpl.
  - intros (T & _ & -> & _)%insert_row_Ok. done.
  - intros (T & _ & -> & _)%update_rows_Ok. done.
  - unfold delete_rows. destruct (db_schema db !! t); [|done].
    apply delete_from_schema.
Qed.

Lemma reachable_schema e db : reachable e db → db_schema db = fresh_schema.
Proof.
  induction 1 as [|db st db' _ IH Hst]; [reflexivity|].
  rewrite (execute_schema _ _ _ _ Hst). exact IH.
Qed.

Lemma total_rows_ge db t :
  (length (rows_of db t) ≤ total_rows db)%nat.
Proof.
  unfold rows_of, total_rows.
  destruct (db_rows db !! t) as [rs|] eqn:Ht; simpl; [|lia].
  rewrite (map_fold_delete_L _ _ t rs _); [lia| |done].
  intros. lia.
Qed.

Lemma filter_none_selected (w : row → bool) rs :
  filter (λ r, w r = true) rs = [] → filter (λ r, w r = false) rs = rs.
Proof.
  induction rs as [|r rs IH]; [done|]. rewrite !filter_cons.
  destruct (w r); simpl; [done|]. intros H. by rewrite (IH H).
Qed.

(** Deleting from a table nothing refers to removes the selected rows and
    nothing else. *)
Lemma delete_from_leaf fuel t w db :
  referencing (db_schema db) t = [] →
  ∃ db', delete_from (S fuel) t w db = Ok db' ∧
    db_schema db' = db_schema db ∧
    ∀ t', rows_of db' t'
          = if decide (t = t')
            then filter (λ r, w r = false) (rows_of db t)
            else rows_of db t'.
Proof.
  intros Href. rewrite delete_from_S, Href. cbv zeta.
  destruct (filter (λ r, w r = true) (rows_of db t)) as [|g gs] eqn:Hg.
  - exists db. split; [done|]. split; [done|]. intros t'.
    destruct (decide (t = t')) as [<-|]; [|done].
    by rewrite (filter_none_selected w _ Hg).
  - eexists. split; [reflexivity|]. split; [done|].
    intros t'. apply rows_of_set_rows.
Qed.

(** *** The catalog after the migration *)

Lemma references_identifier gone r :
  references identifier_fk gone r = true ↔
  get r "Identifier_field" ≠ NULL ∧
  ∃ p, p ∈ gone ∧ get p "id" = get r "Identifier_field".
Proof.
  unfold references, identifier_fk, key. simpl.
  rewrite andb_true_iff, negb_true_iff, has_null_singleton, existsb_exists.
  split.
  - intros [Hn (p & Hp & Heq)]. split; [by destruct (get r _)|].
    exists p. split; [by apply list_elem_of_In|].
    apply bool_decide_eq_true in Heq. congruence.
  - intros [Hn (p & Hp & Heq)]. split; [by destruct (get r _)|].
    exists p. split; [by apply list_elem_of_In|].
    apply bool_decide_eq_true. congruence.
Qed.

Lemma fk_satisfied_identifier db r :
  fk_satisfied db identifier_fk r = true ↔
  get r "Identifier_field" = NULL ∨
  ∃ p, p ∈ rows_of db "identifiers" ∧
       get p "id" = get r "Identifier_field".
Proof.
  unfold fk_satisfied, identifier_fk, key. simpl.
  rewrite orb_true_iff, has_null_singleton, existsb_exists. split.
  - intros [Hn|(p & Hp & Heq)]; [left; by destruct (get r _)|right].
    exists p. split; [by apply list_elem_of_In|].
    apply bool_decide_eq_true in Heq. congruence.
  - intros [Hn|(p & Hp & Heq)]; [left; by rewrite Hn|right].
    exists p. split; [by apply list_elem_of_In|].
    apply bool_decide_eq_true. congruence.
Qed.

Lemma schema_identifiers T :
  fresh_schema !! "identifiers" = Some T →
  foreign_keys T = [] ∧ unique_keys T = [["id"]] ∧
  autoincrement_column T = Some "id".
Proof.
  intros H. vm_compute in H. injection H as <-.
  vm_compute. repeat split; reflexivity.
Qed.

Lemma schema_user T :
  fresh_schema !! "user" = Some T →
  foreign_keys T = [] ∧
  unique_keys T = [["id"]; ["username"]; ["email"]] ∧
  autoincrement_column T = Some "id" ∧
  column_names (tbl_items T) = ["id"; "username"; "email"] ∧
  primary_key T = ["id"] ∧
  columns T = [("id", sa.Integer, false); ("username", sa.String_, true);
               ("email", sa.String_, true)].
Proof.
  intros H. vm_compute in H. injection H as <-.
  vm_compute. repeat split; reflexivity.
Qed.

Lemma schema_files T :
  fresh_schema !! "files" = Some T →
  foreign_keys T = [identifier_fk] ∧ unique_keys T = [["id"]] ∧
  autoincrement_column T = Some "id".
Proof.
  intros H. vm_compute in H. injection H as <-.
  vm_compute. repeat split; reflexivity.
Qed.

Lemma schema_passes T :
  fresh_schema !! "passes" = Some T →
  foreign_keys T = [identifier_fk] ∧ unique_keys T = [["id"]] ∧
  autoincrement_column T = Some "id".
Proof.
  intros H. vm_compute in H. injection H as <-.
  vm_compute. repeat split; reflexivity.
Qed.

Lemma schema_referencing :
  referencing fresh_schema "identifiers"
    = [("files", identifier_fk); ("passes", identifier_fk)] ∧
  referencing fresh_schema "user" = [] ∧
  referencing fresh_schema "files" = [] ∧
  referencing fresh_schema "passes" = [].
Proof. vm_compute. repeat split; reflexivity. Qed.

Lemma schema_tables t T :
  fresh_schema !! t = Some T →
  t = "identifiers" ∨ t = "user" ∨ t = "files" ∨ t = "passes".
Proof.
  intros H%fresh_schema_dom. apply list_elem_of_In in H. simpl in H.
  intuition.
Qed.

Lemma filter_all {A} (P : A → Prop) `{∀ x, Decision (P x)} (l : list A) :
  (∀ x, x ∈ l → P x) → filter P l = l.
Proof.
  induction l as [|x l IH]; [done|]. intros Hall. rewrite filter_cons.
  destruct (decide (P x)) as [|Hn].
  - f_equal. apply IH. intros y Hy. apply Hall. by apply list_elem_of_further.
  - destruct Hn. apply Hall. apply list_elem_of_here.
Qed.

Lemma references_nil fk r : references fk [] r = false.
Proof. unfold references. apply andb_false_r. Qed.

Lemma delete_step_cascade fuel gone d c :
  delete_step fuel gone (Ok d) (c, identifier_fk)
  = delete_from fuel c (references identifier_fk gone) d.
Proof. reflexivity. Qed.

Lemma delete_rows_leaf t w db :
  db_schema db = fresh_schema → t = "user" ∨ t = "files" ∨ t = "passes" →
  ∃ db', delete_rows t w db = Ok db' ∧
    ∀ t', rows_of db' t'
          = if decide (t = t')
            then filter (λ r, w r = false) (rows_of db t)
            else rows_of db t'.
Proof.
  intros Hs Ht. unfold delete_rows. rewrite Hs.
  destruct schema_referencing as (_ & Hu & Hf & Hp).
  assert (is_Some (fresh_schema !! t) ∧ referencing fresh_schema t = [])
    as [[T ->] Href].
  { destruct Ht as [-> | [-> | ->]];
      (split; [vm_compute; eexists; reflexivity|]); assumption. }
  destruct (delete_from_leaf (total_rows db) t w db) as (db' & ? & _ & ?);
    [rewrite Hs; exact Href|].
  exists db'. split; assumption.
Qed.

(** Deleting from [identifiers] removes the selected rows, and from
    [files] and [passes] exactly the rows that refer to one of them. *)
Lemma delete_rows_identifiers w db :
  db_schema db = fresh_schema →
  let gone := filter (λ r, w r = true) (rows_of db "identifiers") in
  ∃ db', delete_rows "identifiers" w db = Ok db' ∧
    rows_of db' "identifiers"
      = filter (λ r, w r = false) (rows_of db "identifiers") ∧
    rows_of db' "files"
      = filter (λ r, references identifier_fk gone r = false)
               (rows_of db "files") ∧
    rows_of db' "passes"
      = filter (λ r, references identifier_fk gone r = false)
               (rows_of db "passes") ∧
    rows_of db' "user" = rows_of db "user".
Proof.
  intros Hs gone. unfold delete_rows. rewrite Hs.
  destruct (fresh_schema !! "identifiers") as [T|] eqn:HT;
    [clear HT|by vm_compute in HT].
  rewrite delete_from_S. cbv zeta. fold gone.
  destruct gone as [|g gs] eqn:Hg.
  - exists db. split; [reflexivity|].
    rewrite (filter_none_selected w _ Hg).
    rewrite (filter_all _ (rows_of db "files")),
            (filter_all _ (rows_of db "passes"));
      [repeat split | intros; apply references_nil ..].
  - destruct (total_rows db) as [|fuel] eqn:Hfuel.
    { pose proof (total_rows_ge db "identifiers") as Hge.
      assert (g ∈ rows_of db "identifiers") as Hin.
      { assert (g ∈ gone) as Hgin by (rewrite Hg; apply list_elem_of_here).
        unfold gone in Hgin. by apply list_elem_of_filter in Hgin as [_ ?]. }
      destruct (rows_of db "identifiers"); [by apply list_elem_of_In in Hin|].
      simpl in Hge. lia. }
    rewrite Hs. destruct schema_referencing as (-> & _ & Hf & Hp).
    set (db1 := set_rows "identifiers" _ db).
    assert (db_schema db1 = fresh_schema) as Hs1 by exact Hs.
    change (foldl ?f ?a [?x; ?y]) with (f (f a x) y).
    rewrite delete_step_cascade.
    destruct (delete_from_leaf fuel "files"
                (references identifier_fk (g :: gs)) db1)
      as (db2 & -> & Hs2 & Hrows2); [rewrite Hs1; exact Hf|].
    rewrite delete_step_cascade.
    destruct (delete_from_leaf fuel "passes"
                (references identifier_fk (g :: gs)) db2)
      as (db3 & -> & Hs3 & Hrows3); [rewrite Hs2, Hs1; exact Hp|].
    exists db3. split; [reflexivity|].
    rewrite !Hrows3, !Hrows2. unfold db1. rewrite !rows_of_set_rows.
    repeat split.
Qed.

(** *** Referential integrity is an invariant *)

Lemma children_cases t :
  t ∈ ["files"; "passes"] → t = "files" ∨ t = "passes".
Proof. intros H%list_elem_of_In. simpl in H. intuition. Qed.

Lemma no_orphans_intro db :
  (∀ t r, t ∈ ["files"; "passes"] → r ∈ rows_of db t →
          fk_satisfied db identifier_fk r = true) →
  no_orphans db.
Proof. intros H t r Ht Hr. apply fk_satisfied_identifier. eauto. Qed.

Lemma no_orphans_elim db t r :
  no_orphans db → t ∈ ["files"; "passes"] → r ∈ rows_of db t →
  fk_satisfied db identifier_fk r = true.
Proof. intros H Ht Hr. apply fk_satisfied_identifier. eauto. Qed.

Lemma fk_satisfied_mono db db' r :
  (∀ p, p ∈ rows_of db "identifiers" → p ∈ rows_of db' "identifiers") →
  fk_satisfied db identifier_fk r = true →
  fk_satisfied db' identifier_fk r = true.
Proof.
  intros Hsub. rewrite !fk_satisfied_identifier.
  intros [?|(p & Hp & ?)]; [by left|right]. exists p. split; auto.
Qed.

Lemma no_orphans_insert e g t r db db' :
  db_schema db = fresh_schema → no_orphans db →
  insert_row e g t r db = Ok db' → no_orphans db'.
Proof.
  intros Hs Hinv (T & HT & Hdb' & _ & _ & Hfk)%insert_row_Ok.
  cbv zeta in Hdb', Hfk. rewrite Hs in HT.
  set (r' := with_autoincrement e T g r) in *.
  assert (∀ p, p ∈ rows_of db "identifiers" →
               p ∈ rows_of db' "identifiers") as Hgrow.
  { intros p Hp. rewrite Hdb', rows_of_set_rows.
    destruct (decide _) as [->|]; [|exact Hp].
    apply elem_of_app. by left. }
  apply no_orphans_intro. intros t0 r0 Ht0 Hr0.
  assert (r0 ∈ rows_of db t0 ∨ (t = t0 ∧ r0 = r')) as [Hold|[<- ->]].
  { rewrite Hdb', rows_of_set_rows in Hr0.
    destruct (decide (t = t0)) as [<-|]; [|by left].
    apply elem_of_app in Hr0 as [?|Hr0]; [by left|right].
    apply list_elem_of_In in Hr0. simpl in Hr0. intuition. }
  - apply (fk_satisfied_mono db); [exact Hgrow|].
    by apply (no_orphans_elim db t0).
  - apply Hfk. apply children_cases in Ht0 as [-> | ->].
    + destruct (schema_files T HT) as (-> & _). apply list_elem_of_here.
    + destruct (schema_passes T HT) as (-> & _). apply list_elem_of_here.
Qed.

Lemma no_orphans_update e t w a db db' :
  db_schema db = fresh_schema → no_orphans db →
  update_rows e t w a db = Ok db' → no_orphans db'.
Proof.
  intros Hs Hinv (T & HT & Hdb' & Hfk & Hch)%update_rows_Ok.
  cbv zeta in Hdb', Hfk. rewrite Hs in HT.
  apply no_orphans_intro. intros t0 r0 Ht0 Hr0.
  destruct (decide (t = "identifiers")) as [->|Hne].
  - (* the statement rewrote parent rows: every child was checked *)
    unfold children_satisfied in Hch.
    assert (db_schema db' = fresh_schema) as Hs'
      by (rewrite Hdb'; exact Hs).
    rewrite Hs' in Hch. destruct schema_referencing as (Href & _).
    rewrite Href in Hch. rewrite forallb_forall in Hch.
    assert (forallb (fk_satisfied db' identifier_fk) (rows_of db' t0) = true)
      as Hall.
    { apply children_cases in Ht0 as [-> | ->].
      - apply (Hch ("files", identifier_fk)). simpl. auto.
      - apply (Hch ("passes", identifier_fk)). simpl. auto. }
    rewrite forallb_forall in Hall. apply Hall. by apply list_elem_of_In.
  - assert (∀ p, p ∈ rows_of db "identifiers" →
                 p ∈ rows_of db' "identifiers") as Hgrow.
    { intros p Hp. rewrite Hdb', rows_of_set_rows.
      destruct (decide _) as [?|]; [congruence|exact Hp]. }
    destruct (decide (t = t0)) as [<-|Hne0].
    + (* the statement rewrote this child table: its rows were checked *)
      apply Hfk.
      * apply children_cases in Ht0 as [-> | ->].
        -- destruct (schema_files T HT) as (-> & _). apply list_elem_of_here.
        -- destruct (schema_passes T HT) as (-> & _). apply list_elem_of_here.
      * rewrite Hdb', rows_of_set_rows in Hr0.
        destruct (decide _); [exact Hr0|congruence].
    + apply (fk_satisfied_mono db); [exact Hgrow|].
      apply (no_orphans_elim db t0); [exact Hinv|exact Ht0|].
      rewrite Hdb', rows_of_set_rows in Hr0.
      destruct (decide _); [congruence|exact Hr0].
Qed.

Lemma no_orphans_delete t w db db' :
  db_schema db = fresh_schema → no_orphans db →
  delete_rows t w db = Ok db' → no_orphans db'.
Proof.
  intros Hs Hinv Hdel.
  assert (t = "identifiers" ∨ t = "user" ∨ t = "files" ∨ t = "passes")
    as [-> | Hleaf].
  { unfold delete_rows in Hdel. rewrite Hs in Hdel.
    destruct (fresh_schema !! t) as [T|] eqn:HT; [|discriminate].
    exact (schema_tables t T HT). }
  - destruct (delete_rows_identifiers w db Hs)
      as (d & Hd & Hid & Hf & Hp & _).
    rewrite Hd in Hdel. injection Hdel as ->.
    intros t0 r0 Ht0 Hr0.
    assert (r0 ∈ rows_of db t0 ∧
            references identifier_fk
              (filter (λ r, w r = true) (rows_of db "identifiers")) r0
            = false) as [Hold Hnot].
    { apply children_cases in Ht0 as [-> | ->].
      - rewrite Hf in Hr0. apply list_elem_of_filter in Hr0. tauto.
      - rewrite Hp in Hr0. apply list_elem_of_filter in Hr0. tauto. }
    destruct (Hinv t0 r0 Ht0 Hold) as [?|(p & Hp0 & Heq)]; [by left|].
    destruct (decide (get r0 "Identifier_field" = NULL)) as [?|Hnn];
      [by left|right].
    exists p. split; [|exact Heq]. rewrite Hid.
    apply list_elem_of_filter. split; [|exact Hp0].
    destruct (w p) eqn:Hw; [|reflexivity].
    assert (references identifier_fk
              (filter (λ r, w r = true) (rows_of db "identifiers")) r0
            = true) as Hyes; [|rewrite Hyes in Hnot; discriminate].
    apply references_identifier. split; [exact Hnn|].
    exists p. split; [|exact Heq]. by apply list_elem_of_filter.
  - destruct (delete_rows_leaf t w db Hs Hleaf) as (d & Hd & Hrows).
    rewrite Hd in Hdel. injection Hdel as ->.
    apply no_orphans_intro. intros t0 r0 Ht0 Hr0.
    apply (fk_satisfied_mono db).
    + intros p Hp. rewrite Hrows.
      destruct (decide _) as [->|]; [|exact Hp].
      destruct Hleaf as [?|[?|?]]; discriminate.
    + apply (no_orphans_elim db t0); [exact Hinv|exact Ht0|].
      rewrite Hrows in Hr0. destruct (decide _) as [->|]; [|exact Hr0].
      apply list_elem_of_filter in Hr0. tauto.
Qed.

Lemma reachable_no_orphans e db : reachable e db → no_orphans db.
Proof.
  induction 1 as [|db st db' Hreach IH Hst].
  - intros t r _ Hr. unfold rows_of, initial_db in Hr. simpl in Hr.
    rewrite lookup_empty in Hr. by apply list_elem_of_In in Hr.
  - pose proof (reachable_schema e db Hreach) as Hs.
    destruct st as [t r g|t w a|t w]; simpl in Hst.
    + by eapply no_orphans_insert.
    + by eapply no_orphans_update.
    + by eapply no_orphans_delete.
Qed.

Lemma reachable_run e sts db db' :
  reachable e db → run e sts db = Ok db' → reachable e db'.
Proof.
  revert db. induction sts as [|st sts IH]; intros db Hr; simpl.
  - by intros [= <-].
  - destruct (execute e st db) as [d|err] eqn:Hst; [|done]. simpl.
    apply IH. by eapply reach_step.
Qed.

(** *** Auto-increment and keys *)

Lemma get_with_autoincrement e T g r c :
  autoincrement_column T = Some "id" → c ≠ "id" →
  get (with_autoincrement e T g r) c = get r c.
Proof.
  intros Ha Hc. unfold with_autoincrement. rewrite Ha.
  destruct (r !! "id") as [[| | |]|]; try done;
    [destruct (null_id_generates e); [|done]|]; by rewrite get_insert_ne.
Qed.

(** The id of the stored row: the generated one where the row leaves the
    id to the engine, its own otherwise. *)
Lemma get_with_autoincrement_id e T g r :
  autoincrement_column T = Some "id" →
  get (with_autoincrement e T g r) "id"
  = match r !! "id" with
    | None => IntVal g
    | Some NULL => if null_id_generates e then IntVal g else NULL
    | Some v => v
    end.
Proof.
  intros Ha. unfold with_autoincrement. rewrite Ha.
  destruct (r !! "id") as [[| | |]|] eqn:Hid;
    try (unfold get; by rewrite Hid).
  - destruct (null_id_generates e); [apply get_insert_eq|].
    unfold get. by rewrite Hid.
  - apply get_insert_eq.
Qed.

Lemma lookup_with_autoincrement e T g r c :
  autoincrement_column T = Some "id" → c ≠ "id" →
  with_autoincrement e T g r !! c = r !! c.
Proof.
  intros Ha Hc. unfold with_autoincrement. rewrite Ha.
  destruct (r !! "id") as [[| | |]|]; try done;
    [destruct (null_id_generates e); [|done]|]; by rewrite lookup_insert_ne.
Qed.

Lemma collides_singleton c r r0 :
  collides [c] r r0 = true ↔ get r c ≠ NULL ∧ get r c = get r0 c.
Proof.
  unfold collides, key. simpl.
  rewrite andb_true_iff, negb_true_iff, has_null_singleton,
          bool_decide_eq_true.
  split; intros [Hn Heq]; (split; [by destruct (get r c)|congruence]).
Qed.

End engine.

(** * The data model after the migration *)

Lemma scenario_runs : run postgresql scenario initial_db = Ok scenario_db.
Proof. vm_compute. reflexivity. Qed.

(** The same statements give the same rows on the other engine. *)
Lemma scenario_runs_sqlite : run sqlite scenario initial_db = Ok scenario_db.
Proof. vm_compute. reflexivity. Qed.

(** C7. In every database reachable from the freshly migrated one by
    inserts, updates and deletes, each row of files and of passes has a NULL
    Identifier_field or carries the id of a row of identifiers; and an insert
    into files or passes whose Identifier_field is not NULL and matches no
    identifiers row is rejected. *)
Theorem referential_integrity (e : engine) (db : database) :
  reachable e db →
  no_orphans db ∧
  ∀ g t r, t ∈ ["files"; "passes"] →
    get r "Identifier_field" ≠ NULL →
    (∀ p, p ∈ rows_of db "identifiers" →
          get p "id" ≠ get r "Identifier_field") →
    ∃ err, insert_row e g t r db = Err err.
Proof.
  intros Hreach. split; [by eapply reachable_no_orphans|].
  intros g t r Ht Hnn Hnone.
  destruct (insert_row e g t r db) as [db'|err] eqn:Hins;
    [exfalso|by exists err].
  pose proof (reachable_schema e db Hreach) as Hs.
  apply insert_row_Ok in Hins as (T & HT & Hdb' & _ & _ & Hfk).
  cbv zeta in Hdb', Hfk. rewrite Hs in HT.
  assert (foreign_keys T = [identifier_fk] ∧
          autoincrement_column T = Some "id" ∧ t ≠ "identifiers")
    as (HfkT & Hauto & Hne).
  { apply children_cases in Ht as [-> | ->].
    - destruct (schema_files T HT) as (? & _ & ?). by split_and!.
    - destruct (schema_passes T HT) as (? & _ & ?). by split_and!. }
  clear HT.
  specialize (Hfk identifier_fk). rewrite HfkT in Hfk.
  specialize (Hfk (list_elem_of_here _ _)).
  apply fk_satisfied_identifier in Hfk.
  rewrite (get_with_autoincrement e T g r "Identifier_field" Hauto) in Hfk
    by discriminate.
  destruct Hfk as [Hnull|(p & Hp & Heq)]; [by apply Hnn|].
  rewrite Hdb', rows_of_set_rows in Hp.
  destruct (decide (t = "identifiers")); [by apply Hne|].
  by apply (Hnone p Hp).
Qed.

Lemma referential_integrity_witness :
  no_orphans scenario_db ∧
  ∀ g t r, t ∈ ["files"; "passes"] →
    get r "Identifier_field" ≠ NULL →
    (∀ p, p ∈ rows_of scenario_db "identifiers" →
          get p "id" ≠ get r "Identifier_field") →
    ∃ err, insert_row sqlite g t r scenario_db = Err err.
Proof.
  apply (referential_integrity sqlite scenario_db).
  apply (reachable_run sqlite scenario initial_db); [apply reach_init|].
  vm_compute. reflexivity.
Defined.

(** The rejection at work: a file for the identifier 7, which does not
    exist, is refused with a referential violation; one without an
    identifier is taken. *)
Lemma insert_file_examples (e : engine) :
  e = postgresql ∨ e = sqlite →
  insert_row e 2 "files" {[ "Identifier_field" := IntVal 7;
                            "content" := StrVal "x" ]} scenario_db
    = Err (ReferentialViolation "files") ∧
  (∃ db', insert_row e 2 "files" {[ "content" := StrVal "x" ]} scenario_db
          = Ok db').
Proof.
  intros [-> | ->]; (split; [vm_compute; reflexivity|]);
    eexists; vm_compute; reflexivity.
Qed.

(** C3. In the catalog built by [upgrade] the foreign keys of files and of
    passes point at identifiers.id and are declared ON DELETE CASCADE; so in
    every reachable database a delete on identifiers succeeds, removes the
    selected identifiers rows, removes from files and passes exactly the
    rows that refer to one of them, and leaves no row of files or passes
    without its identifiers row. *)
Theorem delete_identifier_cascades (e : engine) (db : database)
    (w : row → bool) :
  reachable e db →
  foreign_keys <$> (db_schema db !! "files") = Some [identifier_fk] ∧
  foreign_keys <$> (db_schema db !! "passes") = Some [identifier_fk] ∧
  fk_table identifier_fk = "identifiers" ∧
  fk_refcolumns identifier_fk = ["id"] ∧
  fk_ondelete identifier_fk = Some "CASCADE" ∧
  ∃ db', execute e (DELETE "identifiers" w) db = Ok db' ∧
    (∀ p, p ∈ rows_of db' "identifiers" ↔
          p ∈ rows_of db "identifiers" ∧ w p = false) ∧
    (∀ t r, t ∈ ["files"; "passes"] →
       (r ∈ rows_of db' t ↔
        r ∈ rows_of db t ∧
        ¬ (get r "Identifier_field" ≠ NULL ∧
           ∃ p, p ∈ rows_of db "identifiers" ∧ w p = true ∧
                get p "id" = get r "Identifier_field"))) ∧
    no_orphans db'.
Proof.
  intros Hreach. pose proof (reachable_schema e db Hreach) as Hs.
  split; [rewrite Hs; vm_compute; reflexivity|].
  split; [rewrite Hs; vm_compute; reflexivity|].
  do 3 (split; [reflexivity|]).
  destruct (delete_rows_identifiers w db Hs) as (db' & Hd & Hid & Hf & Hp & _).
  exists db'. split; [exact Hd|]. split; [|split].
  - intros p. rewrite Hid, list_elem_of_filter. tauto.
  - intros t r Ht.
    assert (rows_of db' t
            = filter (λ r, references identifier_fk
                             (filter (λ r0, w r0 = true)
                                     (rows_of db "identifiers")) r = false)
                     (rows_of db t)) as ->.
    { apply children_cases in Ht as [-> | ->]; assumption. }
    rewrite list_elem_of_filter, <- not_true_iff_false, references_identifier.
    setoid_rewrite list_elem_of_filter.
    split.
    + intros [Hnot Hin]. split; [exact Hin|].
      intros [Hnn (p & Hp' & Hw & Heq)]. apply Hnot.
      split; [exact Hnn|]. exists p. tauto.
    + intros [Hin Hnot]. split; [|exact Hin].
      intros [Hnn (p & [Hw Hp'] & Heq)]. apply Hnot.
      split; [exact Hnn|]. exists p. tauto.
  - apply (reachable_no_orphans e).
    apply (reach_step e db (DELETE "identifiers" w) db' Hreach Hd).
Qed.

Lemma delete_identifier_cascades_witness :
  let w := λ r : row, bool_decide (get r "id" = IntVal 1) in
  ∃ db', execute postgresql (DELETE "identifiers" w) scenario_db = Ok db' ∧
    (∀ p, p ∈ rows_of db' "identifiers" ↔
          p ∈ rows_of scenario_db "identifiers" ∧ w p = false) ∧
    (∀ t r, t ∈ ["files"; "passes"] →
       (r ∈ rows_of db' t ↔
        r ∈ rows_of scenario_db t ∧
        ¬ (get r "Identifier_field" ≠ NULL ∧
           ∃ p, p ∈ rows_of scenario_db "identifiers" ∧ w p = true ∧
                get p "id" = get r "Identifier_field"))) ∧
    no_orphans db'.
Proof.
  intros w.
  apply (delete_identifier_cascades postgresql scenario_db w).
  apply (reachable_run postgresql scenario initial_db); [apply reach_init|].
  vm_compute. reflexivity.
Defined.

(** The example of the specification: deleting identifier 1 takes its file
    and its pass with it and leaves the two users alone. *)
Lemma delete_identifier_example :
  match execute postgresql
          (DELETE "identifiers" (λ r, bool_decide (get r "id" = IntVal 1)))
          scenario_db with
  | Ok db' => (length (rows_of scenario_db "files"),
               length (rows_of scenario_db "passes"),
               rows_of db' "identifiers", rows_of db' "files",
               rows_of db' "passes", length (rows_of db' "user"))
              = (1%nat, 1%nat, [], [], [], 2%nat)
  | Err _ => False
  end.
Proof. vm_compute. reflexivity. Qed.

Lemma duplicate_key_rejected (e : engine) (g : Z) (db : database)
    (T : Table) (c : string) (r r0 : row) :
  db_schema db !! "user" = Some T →
  [c] ∈ unique_keys T → autoincrement_column T = Some "id" → c ≠ "id" →
  r0 ∈ rows_of db "user" → get r c ≠ NULL → get r c = get r0 c →
  ∃ err, insert_row e g "user" r db = Err err ∧
         (err = DataError "user" ∨ ∃ cols, err = ConstraintViolation cols).
Proof.
  intros HT Hkey Hauto Hc Hin Hnn Heq. unfold insert_row. rewrite HT.
  cbv zeta. destruct (row_well_formed e T _); simpl;
    [|eexists; split; [reflexivity|by left]].
  destruct (first_collision T _ _) as [cols|] eqn:Hcol;
    [eexists; split; [reflexivity|right; by exists cols]|exfalso].
  unfold first_collision in Hcol.
  destruct (list_find _ (unique_keys T)) as [hit|] eqn:Hfind; [done|].
  apply list_find_None in Hfind. rewrite Forall_forall in Hfind.
  apply (Hfind [c] Hkey). apply existsb_exists. exists r0.
  split; [by apply list_elem_of_In|].
  apply collides_singleton.
  rewrite (get_with_autoincrement e T g r c Hauto Hc). by split.
Qed.

Lemma user_table_lookup : fresh_schema !! "user" = Some user_table.
Proof. vm_compute. reflexivity. Qed.

(** A row for the user table that has an id which the engine takes and no
    stored row has, and NULL for username and email, passes the checks. *)
Lemma user_row_stored (e : engine) (T : Table) (r : row) (rs : list row)
    (z : Z) :
  fresh_schema !! "user" = Some T →
  map_Forall (λ c _, c ∈ ["id"; "username"; "email"]) r →
  get r "id" = IntVal z → accepts e T "id" (IntVal z) = true →
  get r "username" = NULL → get r "email" = NULL →
  (∀ r0, r0 ∈ rs → get r0 "id" ≠ IntVal z) →
  row_well_formed e T r = true ∧ first_collision T r rs = None.
Proof.
  intros HT Hknown Hid Hacc Hu He Hfree.
  destruct (schema_user T HT) as (_ & Hkeys & _ & Hnames & Hpk & Hcols).
  clear HT. split.
  - unfold row_well_formed, row_known, row_complete, row_accepted.
    rewrite Hnames, Hcols, Hpk. cbn [forallb].
    rewrite Hid, Hu, He, Hacc. simpl.
    rewrite !andb_true_r. by apply bool_decide_eq_true.
  - unfold first_collision. rewrite Hkeys.
    destruct (list_find _ _) as [[i cols]|] eqn:Hfind; [exfalso|done].
    apply list_find_Some in Hfind as (Hi & Hhit & _).
    apply existsb_exists in Hhit as (r0 & Hr0 & Hcol).
    apply list_elem_of_In in Hr0.
    assert (cols = ["id"] ∨ cols = ["username"] ∨ cols = ["email"])
      as [-> | [-> | ->]].
    { apply list_elem_of_lookup_2 in Hi. apply list_elem_of_In in Hi.
      simpl in Hi. intuition. }
    + apply collides_singleton in Hcol as [_ Hcol].
      rewrite Hid in Hcol. by apply (Hfree r0 Hr0).
    + apply collides_singleton in Hcol as [Hcol _]. by rewrite Hu in Hcol.
    + apply collides_singleton in Hcol as [Hcol _]. by rewrite He in Hcol.
Qed.

Lemma insert_user_row (e : engine) (g : Z) (db : database) (T : Table)
    (r : row) (z : Z) :
  db_schema db = fresh_schema → fresh_schema !! "user" = Some T →
  let r' := with_autoincrement e T g r in
  map_Forall (λ c _, c ∈ ["id"; "username"; "email"]) r' →
  get r' "id" = IntVal z → accepts e T "id" (IntVal z) = true →
  get r' "username" = NULL → get r' "email" = NULL →
  (∀ r0, r0 ∈ rows_of db "user" → get r0 "id" ≠ IntVal z) →
  ∃ db', insert_row e g "user" r db = Ok db'.
Proof.
  intros Hs HT r' Hknown Hid Hacc Hu He Hfree.
  destruct (user_row_stored e T r' (rows_of db "user") z
              HT Hknown Hid Hacc Hu He Hfree) as [Hwf Hcol].
  destruct (schema_user T HT) as (Hfk & _).
  unfold insert_row. rewrite Hs, HT. cbv zeta.
  fold r'. rewrite Hwf, Hcol, Hfk. simpl. by eexists.
Qed.

Lemma user_duplicates (e : engine) (db : database) (T : Table) :
  db_schema db = fresh_schema → fresh_schema !! "user" = Some T →
  (∀ c g1 g2 r1 r2 db1, c ∈ ["email"; "username"] →
     get r1 c ≠ NULL → get r2 c = get r1 c →
     insert_row e g1 "user" r1 db = Ok db1 →
     ∃ err, insert_row e g2 "user" r2 db1 = Err err ∧
            (err = DataError "user" ∨
             ∃ cols, err = ConstraintViolation cols)) ∧
  (∀ c g r r0, c ∈ ["email"; "username"] → r0 ∈ rows_of db "user" →
     get r c ≠ NULL → get r c = get r0 c →
     ∃ err, insert_row e g "user" r db = Err err ∧
            (err = DataError "user" ∨
             ∃ cols, err = ConstraintViolation cols)).
Proof.
  intros Hs HT.
  destruct (schema_user T HT) as (Hfk & Hkeys & Hauto & Hnames & Hpk & Hcols).
  rewrite <- Hs in HT.
  assert (∀ c, c ∈ ["email"; "username"] → c ≠ "id" ∧ [c] ∈ unique_keys T)
    as Hunique.
  { intros c Hc. rewrite Hkeys. apply list_elem_of_In in Hc. simpl in Hc.
    destruct Hc as [<-|[<-|[]]]; (split; [discriminate|]);
      apply list_elem_of_In; simpl; auto. }
  split.
  - intros c g1 g2 r1 r2 db1 Hc Hnn Heq Hins.
    destruct (Hunique c Hc) as [Hne Hkey].
    apply insert_row_Ok in Hins as (T' & HT' & Hdb1 & _).
    rewrite HT in HT'. injection HT' as <-. cbv zeta in Hdb1.
    apply (duplicate_key_rejected e g2 db1 T c r2
             (with_autoincrement e T g1 r1)); try assumption.
    + rewrite Hdb1. exact HT.
    + rewrite Hdb1, rows_of_set_rows.
      destruct (decide _); [|done]. apply elem_of_app. right.
      apply list_elem_of_here.
    + by rewrite Heq.
    + rewrite (get_with_autoincrement e T g1 r1 c Hauto Hne).
      exact Heq.
  - intros c g r r0 Hc Hin Hnn Heq. destruct (Hunique c Hc) as [Hne Hkey].
    by apply (duplicate_key_rejected e g db T c r r0).
Qed.

Lemma user_null_row_accepted (e : engine) (db : database) (T : Table) :
  db_schema db = fresh_schema → fresh_schema !! "user" = Some T →
  ∀ g r,
    map_Forall (λ c v, c ∈ ["id"; "username"; "email"] ∧ v = NULL) r →
    r !! "id" = None ∨ null_id_generates e = true →
    accepts e T "id" (IntVal g) = true →
    (∀ r0, r0 ∈ rows_of db "user" → get r0 "id" ≠ IntVal g) →
    ∃ db', insert_row e g "user" r db = Ok db'.
Proof.
  intros Hs HT g r Hr Hgen Hacc Hfree.
  destruct (schema_user T HT) as (_ & _ & Hauto & _).
  assert (∀ c, get r c = NULL) as Hnull.
  { intros c. unfold get. destruct (r !! c) as [v|] eqn:Hv; [|done].
    by destruct (Hr c v Hv) as [_ ->]. }
  apply (insert_user_row e g db T r g Hs HT); try assumption.
  - intros c v Hv. destruct (decide (c = "id")) as [->|Hne].
    + apply list_elem_of_here.
    + rewrite (lookup_with_autoincrement e _ g r c Hauto Hne) in Hv.
      by destruct (Hr c v Hv).
  - rewrite (get_with_autoincrement_id e _ g r Hauto).
    destruct (r !! "id") as [v|] eqn:Hid; [|done].
    destruct (Hr "id" v Hid) as [_ ->].
    destruct Hgen as [Hn| ->]; [discriminate Hn|reflexivity].
  - rewrite (get_with_autoincrement e _ g r "username" Hauto) by done.
    apply Hnull.
  - rewrite (get_with_autoincrement e _ g r "email" Hauto) by done.
    apply Hnull.
Qed.

Lemma user_own_id_accepted (e : engine) (db : database) (T : Table) :
  db_schema db = fresh_schema → fresh_schema !! "user" = Some T →
  ∀ g z r,
    r !! "id" = Some (IntVal z) →
    map_Forall (λ c v, c = "id" ∨
                       (c ∈ ["username"; "email"] ∧ v = NULL)) r →
    accepts e T "id" (IntVal z) = true →
    (∀ r0, r0 ∈ rows_of db "user" → get r0 "id" ≠ IntVal z) →
    ∃ db', insert_row e g "user" r db = Ok db'.
Proof.
  intros Hs HT g z r Hid Hr Hacc Hfree.
  destruct (schema_user T HT) as (_ & _ & Hauto & _).
  assert (with_autoincrement e T g r = r) as Hsame.
  { unfold with_autoincrement. by rewrite Hauto, Hid. }
  assert (∀ c, c ≠ "id" → get r c = NULL) as Hnull.
  { intros c Hne. unfold get. destruct (r !! c) as [v|] eqn:Hv; [|done].
    by destruct (Hr c v Hv) as [?|[_ ->]]. }
  apply (insert_user_row e g db T r z Hs HT); rewrite ?Hsame; try assumption.
  - intros c v Hv. destruct (Hr c v Hv) as [->|[Hin _]].
    + apply list_elem_of_here.
    + by apply list_elem_of_further.
  - unfold get. by rewrite Hid.
  - by apply Hnull.
  - by apply Hnull.
Qed.

(** C8 as stated fails in its last part.  A row with username and email
    NULL leaves its id to the engine, and the engine may hand out an id that
    is taken: in PostgreSQL the sequence behind the id still stands at its
    start after a row was inserted under the id 1 of its own choosing, so
    the next generated id is 1, and the row is refused as a duplicate. *)
Lemma generated_id_in_use :
  reachable postgresql explicit_id_db ∧
  (∃ r0, rows_of explicit_id_db "user" = [r0] ∧ get r0 "id" = IntVal 1) ∧
  insert_row postgresql 1 "user" ∅ explicit_id_db
    = Err (ConstraintViolation ["id"]).
Proof.
  split.
  - apply (reachable_run postgresql [INSERT "user" {[ "id" := IntVal 1 ]} 1]
             initial_db); [apply reach_init|].
    vm_compute. reflexivity.
  - split; [eexists; split; vm_compute; reflexivity|].
    vm_compute. reflexivity.
Qed.

(** C8, amended.  The user table has nullable string columns username and
    email, a unique index on each of them and a non-unique index on id.  In
    every reachable database, once a row with a non-NULL email (or username)
    has been inserted, inserting a row with the same email (or username)
    fails, on the row's shape or else on the duplicate key, and so does
    inserting a row whose email (or username) is that of any row already in
    the table.  A row whose username and email are both NULL is accepted
    when the id it is stored under is one the engine takes and no row of the
    table has: the generated id, where the row leaves the id to the engine,
    or the row's own. *)
Theorem user_unique_and_nullable (e : engine) (db : database) :
  reachable e db →
  column_decl (db_schema db) "user" "username" = Some (sa.String_, true) ∧
  column_decl (db_schema db) "user" "email" = Some (sa.String_, true) ∧
  lookup_index (db_schema db) "user" "ix_user_email"
    = Some {| ix_columns := ["email"]; ix_unique := true |} ∧
  lookup_index (db_schema db) "user" "ix_user_username"
    = Some {| ix_columns := ["username"]; ix_unique := true |} ∧
  lookup_index (db_schema db) "user" "ix_user_id"
    = Some {| ix_columns := ["id"]; ix_unique := false |} ∧
  db_schema db !! "user" = Some user_table ∧
  (∀ c g1 g2 r1 r2 db1, c ∈ ["email"; "username"] →
     get r1 c ≠ NULL → get r2 c = get r1 c →
     insert_row e g1 "user" r1 db = Ok db1 →
     ∃ err, insert_row e g2 "user" r2 db1 = Err err ∧
            (err = DataError "user" ∨
             ∃ cols, err = ConstraintViolation cols)) ∧
  (∀ c g r r0, c ∈ ["email"; "username"] → r0 ∈ rows_of db "user" →
     get r c ≠ NULL → get r c = get r0 c →
     ∃ err, insert_row e g "user" r db = Err err ∧
            (err = DataError "user" ∨
             ∃ cols, err = ConstraintViolation cols)) ∧
  (∀ g r,
     map_Forall (λ c v, c ∈ ["id"; "username"; "email"] ∧ v = NULL) r →
     r !! "id" = None ∨ null_id_generates e = true →
     accepts e user_table "id" (IntVal g) = true →
     (∀ r0, r0 ∈ rows_of db "user" → get r0 "id" ≠ IntVal g) →
     ∃ db', insert_row e g "user" r db = Ok db') ∧
  (∀ g z r,
     r !! "id" = Some (IntVal z) →
     map_Forall (λ c v, c = "id" ∨
                        (c ∈ ["username"; "email"] ∧ v = NULL)) r →
     accepts e user_table "id" (IntVal z) = true →
     (∀ r0, r0 ∈ rows_of db "user" → get r0 "id" ≠ IntVal z) →
     ∃ db', insert_row e g "user" r db = Ok db').
Proof.
  intros Hreach. pose proof (reachable_schema e db Hreach) as Hs.
  do 5 (split; [rewrite Hs; vm_compute; reflexivity|]).
  split; [rewrite Hs; exact user_table_lookup|].
  destruct (user_duplicates e db user_table Hs user_table_lookup)
    as [Hdup1 Hdup2].
  split; [exact Hdup1|]. split; [exact Hdup2|]. split.
  - exact (user_null_row_accepted e db user_table Hs user_table_lookup).
  - exact (user_own_id_accepted e db user_table Hs user_table_lookup).
Qed.

Lemma user_unique_and_nullable_witness :
  (∀ g1 g2 r2 db1, get r2 "email" = StrVal "grace@example.org" →
     insert_row postgresql g1 "user"
       {[ "email" := StrVal "grace@example.org" ]} scenario_db = Ok db1 →
     ∃ err, insert_row postgresql g2 "user" r2 db1 = Err err ∧
            (err = DataError "user" ∨
             ∃ cols, err = ConstraintViolation cols)) ∧
  (∃ db', insert_row postgresql 3 "user" ∅ scenario_db = Ok db') ∧
  (∃ db', insert_row postgresql 3 "user"
            {[ "id" := IntVal 7; "username" := NULL; "email" := NULL ]}
            scenario_db = Ok db').
Proof.
  destruct (user_unique_and_nullable postgresql scenario_db)
    as (_ & _ & _ & _ & _ & _ & Hdup & _ & Hnull & Hown).
  { apply (reachable_run postgresql scenario initial_db); [apply reach_init|].
    vm_compute. reflexivity. }
  split; [|split].
  - intros g1 g2 r2 db1 Heq Hins.
    apply (Hdup "email" g1 g2 {[ "email" := StrVal "grace@example.org" ]}
             r2 db1);
      [by_compute|vm_compute; discriminate|exact Heq|exact Hins].
  - apply Hnull.
    + by_compute.
    + left. reflexivity.
    + vm_compute. reflexivity.
    + apply Forall_forall. by_compute.
  - apply (Hown 3 7).
    + vm_compute. reflexivity.
    + by_compute.
    + vm_compute. reflexivity.
    + apply Forall_forall. by_compute.
Defined.

(** The same on concrete rows: the second ada is refused on the email key,
    and a third user without name and address is taken under a new id
    although one such row is already there. *)
Lemma insert_user_examples (e : engine) :
  e = postgresql ∨ e = sqlite →
  insert_row e 3 "user" {[ "username" := StrVal "ada2";
                           "email" := StrVal "ada@example.org" ]} scenario_db
    = Err (ConstraintViolation ["email"]) ∧
  insert_row e 3 "user" {[ "username" := StrVal "ada";
                           "email" := StrVal "ada2@example.org" ]} scenario_db
    = Err (ConstraintViolation ["username"]) ∧
  (∃ db', insert_row e 3 "user" ∅ scenario_db = Ok db' ∧
          length (rows_of db' "user") = 3%nat).
Proof.
  intros [-> | ->]; (split; [vm_compute; reflexivity|]);
    (split; [vm_compute; reflexivity|]);
    eexists; split; vm_compute; reflexivity.
Qed.

(** * More about the two scripts *)

(** X1. Where no index goes by the name ix_passes_id, as in a catalog the
    migration was never applied to, [downgrade] fails at its first call,
    which drops that index, and the catalog stays exactly as it was, with or
    without transactional DDL. *)
Theorem downgrade_without_upgrade (e : engine) (s : schema) :
  ¬ index_exists s "ix_passes_id" →
  exec e downgrade s = Aborted (NoSuchObject "ix_passes_id") s ∧
  ∀ b, migrate e b downgrade s = s.
Proof.
  intros Hs. pose proof (exec_downgrade_no_index e s Hs) as Hrun.
  split; [exact Hrun|]. intros b. unfold migrate. rewrite Hrun.
  by destruct b.
Qed.

Lemma downgrade_without_upgrade_witness :
  exec postgresql downgrade alembic_version_only
    = Aborted (NoSuchObject "ix_passes_id") alembic_version_only ∧
  ∀ b, migrate postgresql b downgrade alembic_version_only
       = alembic_version_only.
Proof.
  apply (downgrade_without_upgrade postgresql alembic_version_only).
  by_compute.
Defined.

(** X4. After a successful [upgrade] the catalog holds what it held before
    and the declared objects, no more and no fewer: a table is there exactly
    if it was there or is one of the four, an index name is in use exactly
    if it was or is one of the six, and every declared index sits on the
    table it was created on. *)
Theorem upgrade_installs_exactly (e : engine) (s s' : schema) :
  exec e upgrade s = Done s' →
  installed s' ∧
  (∀ t, is_Some (s' !! t) ↔ t ∈ declared_tables ∨ is_Some (s !! t)) ∧
  (∀ n, index_exists s' n ↔ n ∈ declared_indexes ∨ index_exists s n).
Proof.
  intros [Hf ->]%exec_upgrade_done. split; [|split].
  - intros n t Hin.
    pose proof (installed_fresh_schema n t Hin) as Hix.
    rewrite lookup_index_union_l; [exact Hix|].
    by eapply lookup_index_Some_table.
  - intros t. rewrite lookup_union_is_Some, fresh_schema_tables. tauto.
  - intros n. rewrite (index_exists_union _ _ _ (unused_disjoint s Hf)),
              fresh_schema_indexes. tauto.
Qed.

Lemma upgrade_installs_exactly_witness :
  let s' := fresh_schema ∪ alembic_version_only in
  installed s' ∧
  (∀ t, is_Some (s' !! t) ↔
        t ∈ declared_tables ∨ is_Some (alembic_version_only !! t)) ∧
  (∀ n, index_exists s' n ↔
        n ∈ declared_indexes ∨ index_exists alembic_version_only n).
Proof.
  intros s'. apply (upgrade_installs_exactly sqlite alembic_version_only s').
  vm_compute. reflexivity.
Defined.

(** X5. [upgrade] cannot be applied twice: run again on the catalog it
    produced, it fails at its first call on the identifiers table, and the
    catalog is not changed, with or without transactional DDL. *)
Theorem upgrade_twice_fails (e : engine) (s s' : schema) :
  exec e upgrade s = Done s' →
  exec e upgrade s' = Aborted (SchemaConflict "identifiers") s' ∧
  ∀ b, migrate e b upgrade s' = s'.
Proof.
  intros [_ Hs']%exec_upgrade_done.
  assert (is_Some (s' !! "identifiers")) as Hid.
  { rewrite Hs', lookup_union_is_Some. left.
    apply fresh_schema_tables. by_compute. }
  clear Hs'. pose proof (exec_upgrade_taken e s' Hid) as Hrun.
  split; [exact Hrun|]. intros b. unfold migrate. rewrite Hrun.
  by destruct b.
Qed.

Lemma upgrade_twice_fails_witness :
  exec postgresql upgrade fresh_schema
    = Aborted (SchemaConflict "identifiers") fresh_schema ∧
  ∀ b, migrate postgresql b upgrade fresh_schema = fresh_schema.
Proof.
  apply (upgrade_twice_fails postgresql ∅ fresh_schema).
  vm_compute. reflexivity.
Defined.

Lemma downgrade_leaves_no_index (e : engine) (s s' : schema) :
  exec e downgrade s = Done s' → ¬ index_exists s' "ix_passes_id".
Proof.
  intros Hrun Hex.
  assert (downgrade
          = op.drop_index "ix_passes_id" "passes" :: drop 1 downgrade) as Heq
    by reflexivity.
  rewrite Heq in Hrun. cbn [exec] in Hrun.
  destruct (invoke e (op.drop_index "ix_passes_id" "passes") s)
    as [s1|err] eqn:Hinv; [|discriminate Hrun].
  cbn [invoke] in Hinv.
  destruct (decide (index_exists s "ix_passes_id")); [|discriminate Hinv].
  injection Hinv as <-.
  assert (Forall (λ o, creates o = None) (drop 1 downgrade)) as HF
    by (simpl; repeat constructor).
  apply (exec_drop_no_index e _ _ _ "ix_passes_id" HF Hrun) in Hex.
  apply index_exists_remove in Hex as [Hne _]. by apply Hne.
Qed.

(** X6. Nor can [downgrade]: run again on the catalog it produced, it
    fails at its first call because the index ix_passes_id is gone, and the
    catalog is not changed. *)
Theorem downgrade_twice_fails (e : engine) (s s' : schema) :
  exec e downgrade s = Done s' →
  exec e downgrade s' = Aborted (NoSuchObject "ix_passes_id") s' ∧
  ∀ b, migrate e b downgrade s' = s'.
Proof.
  intros Hrun%downgrade_leaves_no_index.
  pose proof (exec_downgrade_no_index e s' Hrun) as Hab.
  split; [exact Hab|]. intros b. unfold migrate. rewrite Hab.
  by destruct b.
Qed.

Lemma downgrade_twice_fails_witness :
  exec sqlite downgrade alembic_version_only
    = Aborted (NoSuchObject "ix_passes_id") alembic_version_only ∧
  ∀ b, migrate sqlite b downgrade alembic_version_only
       = alembic_version_only.
Proof.
  apply (downgrade_twice_fails sqlite (fresh_schema ∪ alembic_version_only)
           alembic_version_only).
  vm_compute. reflexivity.
Defined.

(** X7. The round trip the other way: in a catalog whose four tables are
    exactly as [upgrade] builds them, where the rest uses none of the
    declared names and has no foreign key into one of the four tables,
    [downgrade] succeeds and [upgrade] run on its result gives the catalog
    back. *)
Theorem downgrade_upgrade_round_trip (e : engine) (s : schema) :
  Forall (λ t, s !! t = fresh_schema !! t) declared_tables →
  unused (foldr delete s declared_tables) →
  Forall (λ t, ¬ referenced (foldr delete s declared_tables) t)
         declared_tables →
  exec e downgrade s = Done (foldr delete s declared_tables) ∧
  exec e upgrade (foldr delete s declared_tables) = Done s.
Proof.
  rewrite !Forall_forall. intros Hsame Hfree Href.
  set (s0 := foldr delete s declared_tables) in *.
  assert (s = fresh_schema ∪ s0) as Hs.
  { apply map_eq. intros t.
    destruct (decide (t ∈ declared_tables)) as [Ht|Ht].
    - destruct (proj2 (fresh_schema_tables t) Ht) as [T HT].
      by rewrite (lookup_union_Some_l _ _ _ _ HT), (Hsame t Ht).
    - rewrite lookup_union_r.
      + symmetry. by apply lookup_foldr_delete_not_elem_of.
      + destruct (fresh_schema !! t) as [T|] eqn:HT; [|done].
        destruct Ht. apply fresh_schema_tables. by eexists. }
  split.
  - rewrite Hs at 1. apply exec_downgrade_installed.
    + by apply unused_apart.
    + intros _. exact Href.
  - rewrite (exec_upgrade_unused e s0 Hfree). by rewrite <- Hs.
Qed.

Lemma downgrade_upgrade_round_trip_witness :
  let s := fresh_schema ∪ alembic_version_only in
  exec postgresql downgrade s = Done (foldr delete s declared_tables) ∧
  exec postgresql upgrade (foldr delete s declared_tables) = Done s.
Proof.
  intros s. apply (downgrade_upgrade_round_trip postgresql s); by_compute.
Defined.

Lemma child_create_fails (e : engine) (s : schema) (o : op.operation)
    (t : string) :
  checks_references e = true →
  o ∈ upgrade → creates o = Some (TableObj t) → t ∈ ["files"; "passes"] →
  s !! "identifiers" = None →
  ∃ err, invoke e o s = Err err.
Proof.
  intros He Ho Hc Ht Hid.
  assert (has_column s "identifiers" "id" = false) as Hcol
    by (unfold has_column; by rewrite Hid).
  apply list_elem_of_In in Ho. apply list_elem_of_In in Ht.
  simpl in Ho, Ht.
  repeat (destruct Ho as [<-|Ho];
    [simpl in Hc; first [discriminate Hc | injection Hc as <-];
     first [by (destruct Ht as [Ht|[Ht|[]]]; discriminate Ht)|idtac]|]);
    [| |destruct Ho].
  - cbn [invoke]. destruct (decide _); [by eexists|].
    cbn [forallb item_local item_resolves negb]. unfold ref_resolves.
    replace (split_ref "identifiers.id") with (Some ("identifiers", "id"))
      by (vm_compute; reflexivity).
    destruct (decide ("identifiers" = "files")); [discriminate|].
    rewrite Hcol, He.
    match goal with
    | |- ∃ err, (if negb ?b then _ else _) = _ =>
        replace b with true by (vm_compute; reflexivity)
    end.
    simpl. by eexists.
  - cbn [invoke]. destruct (decide _); [by eexists|].
    cbn [forallb item_local item_resolves negb]. unfold ref_resolves.
    replace (split_ref "identifiers.id") with (Some ("identifiers", "id"))
      by (vm_compute; reflexivity).
    destruct (decide ("identifiers" = "passes")); [discriminate|].
    rewrite Hcol, He.
    match goal with
    | |- ∃ err, (if negb ?b then _ else _) = _ =>
        replace b with true by (vm_compute; reflexivity)
    end.
    simpl. by eexists.
Qed.

(** X8. Where the engine checks references, the order of [upgrade] is
    needed.  In a catalog without an identifiers table the calls that create
    files and passes fail there (on the foreign key, or on the name if it
    is taken), so a script that reaches one of them before anything that
    acts on identifiers cannot succeed. *)
Theorem children_need_identifiers (e : engine) (s : schema)
    (o : op.operation) (t : string) (pre post : list op.operation) :
  checks_references e = true →
  o ∈ upgrade → creates o = Some (TableObj t) → t ∈ ["files"; "passes"] →
  s !! "identifiers" = None → "identifiers" ∉ target_table <$> pre →
  ∃ err s1, exec e (pre ++ o :: post) s = Aborted err s1.
Proof.
  intros He Ho Hc Ht Hid Hpre. rewrite exec_app.
  pose proof (exec_frame_items e pre s "identifiers" Hpre) as Hfr.
  destruct (exec e pre s) as [s1|err s1]; [|by exists err, s1].
  simpl in Hfr. rewrite Hid in Hfr. apply fmap_None in Hfr.
  destruct (child_create_fails e s1 o t He Ho Hc Ht Hfr) as [err Herr].
  exists err, s1. by apply exec_cons_Err.
Qed.

Lemma children_need_identifiers_witness :
  ∃ err s1,
    exec postgresql (drop 2 upgrade) alembic_version_only = Aborted err s1.
Proof.
  refine (children_need_identifiers postgresql alembic_version_only _ "files"
            (take 4 (drop 2 upgrade)) (drop 7 upgrade) _ _ _ _ _ _).
  - reflexivity.
  - by_compute.
  - reflexivity.
  - by_compute.
  - vm_compute. reflexivity.
  - by_compute.
Defined.

(** Where the engine does not look at references, the same script goes
    through: the files and passes tables are created with a foreign key
    whose target is not there. *)
Lemma children_without_identifiers_unchecked :
  ∃ s', exec sqlite (drop 2 upgrade) alembic_version_only = Done s' ∧
        is_Some (s' !! "files") ∧ s' !! "identifiers" = None.
Proof.
  eexists. split; [vm_compute; reflexivity|].
  split; [vm_compute; eexists|vm_compute]; reflexivity.
Qed.

(** * More about the rows *)

Section rows.

Implicit Types (e : engine) (g : Z).
Implicit Types (db : database) (r p : row) (rs : list row).
Implicit Types (t c : string) (T : Table) (cols : list string).

Lemma update_rows_checked e t w a db db' :
  update_rows e t w a db = Ok db' →
  ∃ T, db_schema db !! t = Some T ∧
    let rs' := (λ r, if w r then a ∪ r else r) <$> rows_of db t in
    db' = set_rows t rs' db ∧
    forallb (row_well_formed e T) rs' = true ∧
    first_duplicate T rs' = None.
Proof.
  unfold update_rows. destruct (db_schema db !! t) as [T|]; [|done].
  simpl. destruct (forallb (row_well_formed e T) _) eqn:Hwf; [|done]. simpl.
  destruct (first_duplicate T _) eqn:Hdup; [done|].
  destruct (forallb _ _ && _); [|done]. intros [= <-].
  exists T. by split_and!.
Qed.

(** A delete, with whatever it cascades to, only removes rows, and keeps
    the others in their order. *)
Lemma delete_from_sublist fuel t w db db' :
  delete_from fuel t w db = Ok db' →
  ∀ t0, rows_of db' t0 `sublist_of` rows_of db t0.
Proof.
  revert t w db db'. induction fuel as [|fuel IH]; intros t w db db'; [done|].
  rewrite delete_from_S. cbv zeta.
  generalize (filter (λ r, w r = true) (rows_of db t)). intros gone.
  destruct gone as [|g0 gs]; [by intros [= <-]|].
  generalize (g0 :: gs). clear g0 gs. intros gone.
  assert (∀ l acc,
            (∀ d, acc = Ok d → ∀ t0, rows_of d t0 `sublist_of` rows_of db t0) →
            foldl (delete_step fuel gone) acc l = Ok db' →
            ∀ t0, rows_of db' t0 `sublist_of` rows_of db t0) as Hfold.
  { induction l as [|[c fk] l IHl]; intros acc Hacc; simpl.
    - intros ->. by apply Hacc.
    - apply IHl. intros d. destruct acc as [d0|err]; [|done]. simpl.
      destruct (decide _).
      + intros Hd t0. etransitivity; [by eapply IH|]. by apply Hacc.
      + destruct (existsb _ _); [done|]. intros [= <-]. by apply Hacc. }
  apply Hfold. intros d [= <-] t0. rewrite rows_of_set_rows.
  destruct (decide _) as [<-|]; [apply sublist_filter|done].
Qed.

Lemma execute_delete_sublist t w db db' :
  delete_rows t w db = Ok db' →
  ∀ t0, rows_of db' t0 `sublist_of` rows_of db t0.
Proof.
  unfold delete_rows. destruct (db_schema db !! t); [|done].
  apply delete_from_sublist.
Qed.

(** *** Every stored row fits its table *)

Lemma rows_well_formed_step e db st db' :
  rows_well_formed e db → execute e st db = Ok db' → rows_well_formed e db'.
Proof.
  intros Hinv Hst t0 T0 r0.
  rewrite (execute_schema _ _ _ _ Hst). intros HT0 Hr0.
  destruct st as [t r g|t w a|t w]; simpl in Hst.
  - apply insert_row_Ok in Hst as (T & HT & -> & Hwf & _).
    rewrite rows_of_set_rows in Hr0.
    destruct (decide (t = t0)) as [<-|]; [|by eapply Hinv].
    rewrite HT in HT0. injection HT0 as <-.
    apply elem_of_app in Hr0 as [Hr0|Hr0]; [by eapply Hinv|].
    apply list_elem_of_In in Hr0. simpl in Hr0.
    by destruct Hr0 as [<-|[]].
  - apply update_rows_checked in Hst as (T & HT & -> & Hwf & _).
    rewrite rows_of_set_rows in Hr0.
    destruct (decide (t = t0)) as [<-|]; [|by eapply Hinv].
    rewrite HT in HT0. injection HT0 as <-.
    rewrite forallb_forall in Hwf. apply Hwf. by apply list_elem_of_In.
  - eapply Hinv; [exact HT0|].
    eapply elem_of_sublist; [exact Hr0|].
    by eapply execute_delete_sublist.
Qed.

Lemma reachable_rows_well_formed e db :
  reachable e db → rows_well_formed e db.
Proof.
  induction 1 as [|db st db' _ IH Hst].
  - intros t T r _ Hr. unfold rows_of, initial_db in Hr. simpl in Hr.
    rewrite lookup_empty in Hr. by apply list_elem_of_In in Hr.
  - by eapply rows_well_formed_step.
Qed.

Lemma row_well_formed_column e T r c ty nl :
  row_well_formed e T r = true → (c, ty, nl) ∈ columns T →
  (nl = false → get r c ≠ NULL) ∧
  (c ∈ primary_key T → get r c ≠ NULL) ∧
  (get r c ≠ NULL → accepts e T c (get r c) = true).
Proof.
  unfold row_well_formed, row_complete, row_accepted.
  rewrite !andb_true_iff, !forallb_forall.
  intros [[_ Hcomp] Hacc] Hin. apply list_elem_of_In in Hin.
  specialize (Hcomp _ Hin). specialize (Hacc _ Hin). simpl in Hcomp, Hacc.
  rewrite andb_true_iff, negb_true_iff in Hcomp.
  destruct Hcomp as [Hnl Hpk]. split_and!.
  - intros -> Hnull. rewrite Hnull in Hnl. discriminate Hnl.
  - intros Hin' Hnull. rewrite Hnull, bool_decide_eq_true_2 in Hpk by done.
    discriminate Hpk.
  - intros Hnn. destruct (get r c); [by destruct Hnn|exact Hacc..].
Qed.

Lemma row_well_formed_known e T r c v :
  row_well_formed e T r = true → r !! c = Some v →
  c ∈ column_names (tbl_items T).
Proof.
  unfold row_well_formed, row_known.
  rewrite !andb_true_iff, bool_decide_eq_true.
  intros [[Hdom _] _] Hc. by apply (Hdom c v).
Qed.

Lemma column_names_columns T c :
  c ∈ column_names (tbl_items T) → ∃ ty nl, (c, ty, nl) ∈ columns T.
Proof.
  unfold column_names, columns. rewrite list_elem_of_omap.
  intros (it & Hit & Hc). destruct it as [n ty nl| |]; try discriminate Hc.
  injection Hc as ->. exists ty, nl. apply list_elem_of_omap.
  by exists (sa.Column c ty nl).
Qed.

Lemma schema_columns t T :
  fresh_schema !! t = Some T →
  (t = "identifiers" ∧
   columns T = [("id", sa.Integer, false); ("Identifier", sa.Text, false)]) ∨
  (t = "user" ∧
   columns T = [("id", sa.Integer, false); ("username", sa.String_, true);
                ("email", sa.String_, true)]) ∨
  (t = "files" ∧
   columns T = [("id", sa.Integer, false);
                ("Identifier_field", sa.Integer, true);
                ("content", sa.String_, false)]) ∨
  (t = "passes" ∧
   columns T = [("id", sa.Integer, false);
                ("Identifier_field", sa.Integer, true);
                ("transformpass", sa.Text, false)]).
Proof.
  intros HT. destruct (schema_tables t T HT) as [-> | [-> | [-> | ->]]];
    vm_compute in HT; injection HT as <-;
    [left|right; left|right; right; left|right; right; right];
    (split; [reflexivity|vm_compute; reflexivity]).
Qed.

(** Rows are stored in tables only. *)
Lemma reachable_rows_in_tables e db t :
  reachable e db → db_schema db !! t = None → rows_of db t = [].
Proof.
  induction 1 as [|db st db' _ IH Hst].
  - intros _. unfold rows_of, initial_db. simpl. by rewrite lookup_empty.
  - rewrite (execute_schema _ _ _ _ Hst). intros Hnone.
    specialize (IH Hnone). destruct st as [t1 r g|t1 w a|t1 w]; simpl in Hst.
    + apply insert_row_Ok in Hst as (T & HT & -> & _).
      rewrite rows_of_set_rows. destruct (decide _) as [->|]; [|done].
      by rewrite HT in Hnone.
    + apply update_rows_checked in Hst as (T & HT & -> & _).
      rewrite rows_of_set_rows. destruct (decide _) as [->|]; [|done].
      by rewrite HT in Hnone.
    + pose proof (execute_delete_sublist _ _ _ _ Hst t) as Hsub.
      rewrite IH in Hsub. by apply sublist_nil_r.
Qed.

(** *** No key repeats *)

Lemma collides_sym cols r r0 : collides cols r r0 = collides cols r0 r.
Proof.
  unfold collides.
  destruct (decide (key r cols = key r0 cols)) as [Heq|Hne].
  - by rewrite Heq.
  - rewrite !bool_decide_eq_false_2 by congruence. by rewrite !andb_false_r.
Qed.

Lemma rows_unique_snoc cols rs r :
  rows_unique cols (rs ++ [r])
  = rows_unique cols rs && negb (existsb (collides cols r) rs).
Proof.
  induction rs as [|r0 rs IH]; simpl; [done|].
  rewrite IH, existsb_app. simpl. rewrite orb_false_r, !negb_orb.
  rewrite (collides_sym cols r r0).
  by destruct (existsb (collides cols r0) rs), (collides cols r0 r),
       (rows_unique cols rs), (existsb (collides cols r) rs).
Qed.

Lemma rows_unique_sublist cols rs rs' :
  rs' `sublist_of` rs → rows_unique cols rs = true →
  rows_unique cols rs' = true.
Proof.
  induction 1 as [|r l1 l2 Hsub IH|r l1 l2 Hsub IH]; simpl; [done| |].
  - rewrite !andb_true_iff, !negb_true_iff. intros [Hex Hu].
    split; [|by apply IH].
    destruct (existsb (collides cols r) l1) eqn:Hex1; [|done].
    apply existsb_exists in Hex1 as (r0 & Hin & Hcol).
    assert (existsb (collides cols r) l2 = true) as Hex2; [|congruence].
    apply existsb_exists. exists r0. split; [|done].
    apply list_elem_of_In. eapply elem_of_sublist; [|exact Hsub].
    by apply list_elem_of_In.
  - rewrite andb_true_iff. intros [_ Hu]. by apply IH.
Qed.

Lemma rows_unique_lookup cols rs i j r1 r2 :
  rows_unique cols rs = true → rs !! i = Some r1 → rs !! j = Some r2 →
  i ≠ j → collides cols r1 r2 = false.
Proof.
  assert (∀ rs i j r1 r2, rows_unique cols rs = true →
            rs !! i = Some r1 → rs !! j = Some r2 → (i < j)%nat →
            collides cols r1 r2 = false) as Hlt.
  { clear. induction rs as [|r rs IH]; intros i j r1 r2; [done|].
    simpl. rewrite andb_true_iff, negb_true_iff. intros [Hex Hu] Hi Hj Hij.
    destruct i as [|i], j as [|j]; try lia; simpl in Hi, Hj.
    - injection Hi as <-.
      destruct (collides cols r r2) eqn:Hcol; [|done].
      assert (existsb (collides cols r) rs = true) as Hex'; [|congruence].
      apply existsb_exists. exists r2. split; [|done].
      apply list_elem_of_In. by eapply list_elem_of_lookup_2.
    - apply (IH i j); [done..|lia]. }
  intros Hu Hi Hj Hij. destruct (decide (i < j)%nat).
  - by apply (Hlt rs i j).
  - rewrite collides_sym. apply (Hlt rs j i); [done..|lia].
Qed.

Lemma keys_unique_step e db st db' :
  keys_unique db → execute e st db = Ok db' → keys_unique db'.
Proof.
  intros Hinv Hst t0 T0 cols.
  rewrite (execute_schema _ _ _ _ Hst). intros HT0 Hcols.
  destruct st as [t r g|t w a|t w]; simpl in Hst.
  - apply insert_row_Ok in Hst as (T & HT & -> & _ & Hcol & _).
    rewrite rows_of_set_rows.
    destruct (decide (t = t0)) as [<-|]; [|by eapply Hinv].
    rewrite HT in HT0. injection HT0 as <-.
    rewrite rows_unique_snoc, andb_true_iff, negb_true_iff.
    split; [by eapply Hinv|].
    unfold first_collision in Hcol.
    destruct (list_find _ (unique_keys T)) as [hit|] eqn:Hfind; [done|].
    apply list_find_None in Hfind. rewrite Forall_forall in Hfind.
    specialize (Hfind cols Hcols). by apply not_true_is_false.
  - apply update_rows_checked in Hst as (T & HT & -> & _ & Hdup).
    rewrite rows_of_set_rows.
    destruct (decide (t = t0)) as [<-|]; [|by eapply Hinv].
    rewrite HT in HT0. injection HT0 as <-.
    unfold first_duplicate in Hdup.
    destruct (list_find _ (unique_keys T)) as [hit|] eqn:Hfind; [done|].
    apply list_find_None in Hfind. rewrite Forall_forall in Hfind.
    specialize (Hfind cols Hcols). by apply not_false_is_true.
  - eapply rows_unique_sublist; [by eapply execute_delete_sublist|].
    by eapply Hinv.
Qed.

Lemma reachable_keys_unique e db : reachable e db → keys_unique db.
Proof.
  induction 1 as [|db st db' _ IH Hst].
  - intros t T cols _ _. unfold rows_of, initial_db. simpl.
    by rewrite lookup_empty.
  - by eapply keys_unique_step.
Qed.

End rows.

(** X9. In every reachable database each stored row fits the table it is
    in: it sits in one of the four tables, mentions only columns of that
    table, has an id, has a value in the payload column of its table
    (Identifier, content, transformpass), and every value in it that is not
    NULL is one the engine takes for its column. *)
Theorem stored_rows_fit (e : engine) (db : database) (t : string) (r : row) :
  reachable e db → r ∈ rows_of db t →
  t ∈ declared_tables ∧
  (∀ c v, r !! c = Some v → has_column (db_schema db) t c = true) ∧
  get r "id" ≠ NULL ∧
  (t = "identifiers" → get r "Identifier" ≠ NULL) ∧
  (t = "files" → get r "content" ≠ NULL) ∧
  (t = "passes" → get r "transformpass" ≠ NULL) ∧
  (∀ T c, db_schema db !! t = Some T → get r c ≠ NULL →
          accepts e T c (get r c) = true).
Proof.
  intros Hreach Hr.
  destruct (db_schema db !! t) as [T|] eqn:HT.
  2:{ rewrite (reachable_rows_in_tables e db t Hreach HT) in Hr.
      by apply list_elem_of_In in Hr. }
  pose proof (reachable_rows_well_formed e db Hreach t T r HT Hr) as Hwf.
  assert (∀ c v, r !! c = Some v → c ∈ column_names (tbl_items T)) as Hnames
    by (intros c v; by eapply row_well_formed_known).
  assert (∀ c v, r !! c = Some v → has_column (db_schema db) t c = true)
    as Hknown.
  { intros c v Hc. unfold has_column. rewrite HT. apply bool_decide_eq_true.
    by eapply Hnames. }
  assert (∀ c, get r c ≠ NULL → accepts e T c (get r c) = true) as Hacc.
  { intros c Hnn. unfold get in Hnn.
    destruct (r !! c) as [v|] eqn:Hc; [|by destruct Hnn].
    destruct (column_names_columns T c (Hnames c v Hc)) as (ty & nl & Hin).
    destruct (row_well_formed_column e T r c ty nl Hwf Hin) as (_ & _ & H).
    apply H. unfold get. by rewrite Hc. }
  rewrite (reachable_schema e db Hreach) in HT.
  assert (t ∈ declared_tables) as Ht by by eapply fresh_schema_dom.
  assert (∀ c ty, (c, ty, false) ∈ columns T → get r c ≠ NULL) as Hcol.
  { intros c ty Hin.
    destruct (row_well_formed_column e T r c ty false Hwf Hin) as (H & _).
    by apply H. }
  clear Hwf Hreach Hr Hnames.
  split; [exact Ht|]. split; [exact Hknown|].
  assert (get r "id" ≠ NULL ∧
          (t = "identifiers" → get r "Identifier" ≠ NULL) ∧
          (t = "files" → get r "content" ≠ NULL) ∧
          (t = "passes" → get r "transformpass" ≠ NULL)) as (? & ? & ? & ?).
  { destruct (schema_columns t T HT)
      as [[-> Hc] | [[-> Hc] | [[-> Hc] | [-> Hc]]]];
      rewrite Hc in Hcol; clear Hc HT Hacc;
      (split; [apply (Hcol "id" sa.Integer); apply list_elem_of_here|]);
      (split; [intros Heq; first [discriminate Heq
                 | apply (Hcol _ sa.Text); apply list_elem_of_In; simpl; tauto]
              |]);
      (split; intros Heq; first [discriminate Heq
                 | apply (Hcol _ sa.String_); apply list_elem_of_In; simpl;
                   tauto
                 | apply (Hcol _ sa.Text); apply list_elem_of_In; simpl;
                   tauto]). }
  split_and!; try assumption.
  intros T' c [= <-]. apply Hacc.
Qed.

Lemma stored_rows_fit_witness :
  let r : row := {[ "id" := IntVal 1; "Identifier_field" := IntVal 1;
                    "content" := StrVal "int main(){}" ]} in
  get r "id" ≠ NULL ∧ get r "content" ≠ NULL.
Proof.
  intros r.
  destruct (stored_rows_fit postgresql scenario_db "files" r)
    as (_ & _ & Hid & _ & Hcontent & _).
  - apply (reachable_run postgresql scenario initial_db); [apply reach_init|].
    vm_compute. reflexivity.
  - by_compute.
  - split; [exact Hid|by apply Hcontent].
Defined.

Lemma payload_column (t c : string) (T : Table) :
  (t, c) ∈ [("identifiers", "Identifier"); ("files", "content");
            ("passes", "transformpass")] →
  fresh_schema !! t = Some T →
  c ≠ "id" ∧ autoincrement_column T = Some "id" ∧
  ∃ ty, (c, ty, false) ∈ columns T.
Proof.
  intros Hin HT. apply list_elem_of_In in Hin. simpl in Hin.
  destruct Hin as [[= <- <-]|[[= <- <-]|[[= <- <-]|[]]]];
    (split; [discriminate|]).
  - destruct (schema_identifiers T HT) as (_ & _ & ->).
    destruct (schema_columns _ T HT)
      as [[_ ->]|[[? _]|[[? _]|[? _]]]]; try discriminate.
    split; [done|]. exists sa.Text. apply list_elem_of_In. simpl. tauto.
  - destruct (schema_files T HT) as (_ & _ & ->).
    destruct (schema_columns _ T HT)
      as [[? _]|[[? _]|[[_ ->]|[? _]]]]; try discriminate.
    split; [done|]. exists sa.String_. apply list_elem_of_In. simpl. tauto.
  - destruct (schema_passes T HT) as (_ & _ & ->).
    destruct (schema_columns _ T HT)
      as [[? _]|[[? _]|[[? _]|[_ ->]]]]; try discriminate.
    split; [done|]. exists sa.Text. apply list_elem_of_In. simpl. tauto.
Qed.

(** X10. The payload columns are required: in every reachable database an
    insert into identifiers, files or passes that leaves Identifier,
    content or transformpass NULL is rejected as a data error, and so is an
    update that sets that column to NULL in some row. *)
Theorem payload_is_required (e : engine) (db : database) (t c : string) :
  reachable e db →
  (t, c) ∈ [("identifiers", "Identifier"); ("files", "content");
            ("passes", "transformpass")] →
  (∀ g r, get r c = NULL → insert_row e g t r db = Err (DataError t)) ∧
  (∀ w a r0, r0 ∈ rows_of db t → w r0 = true → a !! c = Some NULL →
             update_rows e t w a db = Err (DataError t)).
Proof.
  intros Hreach Hin. pose proof (reachable_schema e db Hreach) as Hs.
  assert (is_Some (fresh_schema !! t)) as [T HT].
  { apply fresh_schema_tables. apply list_elem_of_In in Hin. simpl in Hin.
    destruct Hin as [[= <- <-]|[[= <- <-]|[[= <- <-]|[]]]]; by_compute. }
  destruct (payload_column t c T Hin HT) as (Hc & Hauto & ty & Hcol).
  rewrite <- Hs in HT. clear Hs Hin. split.
  - intros g r Hnull. unfold insert_row. rewrite HT. cbv zeta.
    destruct (row_well_formed e T _) eqn:Hwf; [exfalso|reflexivity].
    destruct (row_well_formed_column e T _ c ty false Hwf Hcol) as [Hnn _].
    apply Hnn; [reflexivity|].
    by rewrite (get_with_autoincrement e T g r c Hauto Hc).
  - intros w a r0 Hr0 Hw Ha. unfold update_rows. rewrite HT. cbv zeta.
    destruct (forallb (row_well_formed e T) _) eqn:Hall; [exfalso|reflexivity].
    rewrite forallb_forall in Hall.
    assert (row_well_formed e T (a ∪ r0) = true) as Hwf.
    { apply Hall. apply list_elem_of_In. apply list_elem_of_fmap.
      exists r0. by rewrite Hw. }
    destruct (row_well_formed_column e T _ c ty false Hwf Hcol) as [Hnn _].
    apply Hnn; [reflexivity|]. unfold get.
    by rewrite (lookup_union_Some_l a r0 c NULL Ha).
Qed.

Lemma payload_is_required_witness :
  (∀ g r, get r "content" = NULL →
          insert_row sqlite g "files" r scenario_db
          = Err (DataError "files")) ∧
  (∀ w a r0, r0 ∈ rows_of scenario_db "files" → w r0 = true →
             a !! "content" = Some NULL →
             update_rows sqlite "files" w a scenario_db
             = Err (DataError "files")).
Proof.
  apply (payload_is_required sqlite scenario_db "files" "content").
  - apply (reachable_run sqlite scenario initial_db); [apply reach_init|].
    vm_compute. reflexivity.
  - by_compute.
Defined.

(** X11. Keys stay distinct: in every reachable database no two rows of a
    table share an id, and no two rows of user share an email or a
    username that is not NULL. *)
Theorem keys_stay_distinct (e : engine) (db : database) (t c : string)
    (i j : nat) (r1 r2 : row) :
  reachable e db →
  (t, c) ∈ [("identifiers", "id"); ("user", "id"); ("files", "id");
            ("passes", "id"); ("user", "email"); ("user", "username")] →
  rows_of db t !! i = Some r1 → rows_of db t !! j = Some r2 → i ≠ j →
  get r1 c ≠ NULL → get r1 c ≠ get r2 c.
Proof.
  intros Hreach Hin Hi Hj Hij Hnn Heq.
  pose proof (reachable_keys_unique e db Hreach) as Hu.
  pose proof (reachable_schema e db Hreach) as Hs.
  assert (∃ T, fresh_schema !! t = Some T ∧ [c] ∈ unique_keys T)
    as (T & HT & Hkey).
  { apply list_elem_of_In in Hin. simpl in Hin.
    destruct Hin as [[= <- <-]|[[= <- <-]|[[= <- <-]|[[= <- <-]|
                     [[= <- <-]|[[= <- <-]|[]]]]]]].
    - destruct (fresh_schema !! "identifiers") as [T|] eqn:HT;
        [|by vm_compute in HT].
      exists T. split; [done|]. destruct (schema_identifiers T HT) as (_ & -> & _).
      apply list_elem_of_here.
    - destruct (fresh_schema !! "user") as [T|] eqn:HT; [|by vm_compute in HT].
      exists T. split; [done|]. destruct (schema_user T HT) as (_ & -> & _).
      apply list_elem_of_here.
    - destruct (fresh_schema !! "files") as [T|] eqn:HT; [|by vm_compute in HT].
      exists T. split; [done|]. destruct (schema_files T HT) as (_ & -> & _).
      apply list_elem_of_here.
    - destruct (fresh_schema !! "passes") as [T|] eqn:HT; [|by vm_compute in HT].
      exists T. split; [done|]. destruct (schema_passes T HT) as (_ & -> & _).
      apply list_elem_of_here.
    - destruct (fresh_schema !! "user") as [T|] eqn:HT; [|by vm_compute in HT].
      exists T. split; [done|]. destruct (schema_user T HT) as (_ & -> & _).
      apply list_elem_of_In. simpl. tauto.
    - destruct (fresh_schema !! "user") as [T|] eqn:HT; [|by vm_compute in HT].
      exists T. split; [done|]. destruct (schema_user T HT) as (_ & -> & _).
      apply list_elem_of_In. simpl. tauto. }
  rewrite <- Hs in HT. clear Hs Hin.
  pose proof (rows_unique_lookup [c] _ i j r1 r2 (Hu t T [c] HT Hkey)
                Hi Hj Hij) as Hcol.
  assert (collides [c] r1 r2 = true) as Hyes
    by by apply collides_singleton.
  rewrite Hyes in Hcol. discriminate.
Qed.

Lemma keys_stay_distinct_witness :
  let r1 : row := {[ "id" := IntVal 1; "username" := StrVal "ada";
                     "email" := StrVal "ada@example.org" ]} in
  let r2 : row := {[ "id" := IntVal 2 ]} in
  get r1 "id" ≠ get r2 "id".
Proof.
  intros r1 r2.
  apply (keys_stay_distinct postgresql scenario_db "user" "id" 0 1 r1 r2).
  - apply (reachable_run postgresql scenario initial_db); [apply reach_init|].
    vm_compute. reflexivity.
  - by_compute.
  - vm_compute. reflexivity.
  - vm_compute. reflexivity.
  - lia.
  - vm_compute. discriminate.
Defined.

(** X12. A statement changes the rows of the table it is addressed to and,
    for a delete on identifiers, of files and passes; the rows of every
    other table stay as they are.  So nothing done to identifiers, files or
    passes changes user, nothing done to user changes the others, and
    deleting files or passes never removes an identifier. *)
Theorem statements_touch_their_tables (e : engine) (db db' : database)
    (st : statement) (t' : string) :
  reachable e db → execute e st db = Ok db' →
  t' ≠ target st → ¬ cascades_to st t' →
  rows_of db' t' = rows_of db t'.
Proof.
  intros Hreach Hst Hne Hcasc.
  pose proof (reachable_schema e db Hreach) as Hs.
  destruct st as [t r g|t w a|t w]; simpl in Hst, Hne, Hcasc.
  - apply insert_row_Ok in Hst as (T & _ & -> & _).
    rewrite rows_of_set_rows. destruct (decide _); [congruence|done].
  - apply update_rows_checked in Hst as (T & _ & -> & _).
    rewrite rows_of_set_rows. destruct (decide _); [congruence|done].
  - destruct (db_schema db !! t') as [T'|] eqn:HT'.
    2:{ rewrite (reachable_rows_in_tables e db t' Hreach HT').
        apply (reachable_rows_in_tables e db' t').
        - by apply (reach_step e db (DELETE t w) db').
        - by rewrite (execute_schema e (DELETE t w) db db' Hst). }
    rewrite Hs in HT'. apply schema_tables in HT'.
    assert (t = "identifiers" ∨ t = "user" ∨ t = "files" ∨ t = "passes")
      as [-> | Hleaf].
    { unfold delete_rows in Hst. rewrite Hs in Hst.
      destruct (fresh_schema !! t) as [T|] eqn:HT; [|discriminate].
      exact (schema_tables t T HT). }
    + destruct (delete_rows_identifiers w db Hs) as (d & Hd & _ & _ & _ & Hu).
      rewrite Hd in Hst. injection Hst as ->.
      destruct HT' as [-> | [-> | [-> | ->]]]; [done|exact Hu| |];
        destruct Hcasc; (split; [done|]); apply list_elem_of_In; simpl; tauto.
    + destruct (delete_rows_leaf t w db Hs Hleaf) as (d & Hd & Hrows).
      rewrite Hd in Hst. injection Hst as ->.
      rewrite Hrows. destruct (decide _); [congruence|done].
Qed.

Lemma statements_touch_their_tables_witness :
  let st := DELETE "files" (λ _, true) in
  let db' := match execute sqlite st scenario_db with
             | Ok d => d
             | Err _ => scenario_db
             end in
  rows_of db' "identifiers" = rows_of scenario_db "identifiers".
Proof.
  intros st db'.
  apply (statements_touch_their_tables sqlite scenario_db db' st
           "identifiers").
  - apply (reachable_run sqlite scenario initial_db); [apply reach_init|].
    vm_compute. reflexivity.
  - vm_compute. reflexivity.
  - discriminate.
  - intros [H _]. discriminate H.
Defined.
